(** * qlp: a Quake III Arena log parser, embedded and verified

    The development follows the Go package [qlp].  The repository holds
    two generations of that package:

    - the state-machine parser ([logParser], [lookingForGameParser],
      [matchParser]), closed by a divider line: [Module StateMachine];
    - the earlier parser that uses [InitGame] as the only separator
      ([matchInfo], [skipInitGameEvent]): [Module Legacy].

    Both share the [Match] record and the [Matches.MarshalJSON] formatter.

    Conventions: a Go [string] is a [string] of bytes; a Go [int] is a [Z]
    kept in the 64-bit two's complement range by [int_wrap]; a Go
    [map[string]int] is a [gmap string Z] and a [map[string]struct{}] a
    [gset string]; a function that returns [(T, error)] returns a
    [result T]. *)

From Stdlib Require Import ZArith Ascii String List Lia Sorting.Sorted.
From stdpp Require Import base decidable option list sorting gmap strings pretty.

#[local] Set Warnings "-clear-no-such-hyp".

Local Open Scope Z_scope.
Local Open Scope string_scope.

(** ** Go integers *)

Module GoInt.

Definition bits : Z := 64.
Definition max_int : Z := 2 ^ (bits - 1) - 1.
Definition min_int : Z := - 2 ^ (bits - 1).

(** Two's complement wrap-around of the Go [int] type. *)
Definition int_wrap (z : Z) : Z :=
  (z + 2 ^ (bits - 1)) mod 2 ^ bits - 2 ^ (bits - 1).

(** [x++] and [x--]. *)
Definition incr (z : Z) : Z := int_wrap (z + 1).
Definition decr (z : Z) : Z := int_wrap (z - 1).

Definition in_range (z : Z) : Prop := min_int <= z <= max_int.

End GoInt.

(** ** Errors and results *)

Inductive result (A : Type) : Type :=
| Ok (a : A)
| Err (msg : string).
Arguments Ok {A} a.
Arguments Err {A} msg.

(** [fmt.Sprintf("%d", n)]. *)
Definition sprint_d (n : Z) : string := pretty n.

(** ** Regular expressions

    Go's [regexp] returns the match a backtracking matcher finds first:
    the leftmost start, alternatives tried left to right, greedy
    repetition.  The patterns of the package only test single bytes, all
    of them ASCII, so matching over bytes and over runes agree. *)

Module Regexp.

Inductive regex : Type :=
| Empty
| Class (p : ascii -> bool)
| Cat (r1 r2 : regex)
| Or (r1 r2 : regex)
| Star (r : regex)
| Bol
| Group (i : nat) (r : regex).

Definition Plus (r : regex) : regex := Cat r (Star r).
Definition Opt (r : regex) : regex := Or r Empty.
Definition Chr (c : ascii) : regex := Class (Ascii.eqb c).

Fixpoint Lit (s : string) : regex :=
  match s with
  | EmptyString => Empty
  | String c s' => Cat (Chr c) (Lit s')
  end.

(** Perl classes as Go (RE2) defines them. *)
Definition between (lo hi c : ascii) : bool :=
  (Ascii.leb lo c && Ascii.leb c hi)%bool.
Definition perl_digit (c : ascii) : bool := between "0" "9" c.
Definition perl_space (c : ascii) : bool :=
  (Ascii.eqb c "009" || Ascii.eqb c "010" || Ascii.eqb c "012"
   || Ascii.eqb c "013" || Ascii.eqb c " ")%bool.
Definition perl_word (c : ascii) : bool :=
  (perl_digit c || between "A" "Z" c || between "a" "z" c || Ascii.eqb c "_")%bool.
Definition any_char (c : ascii) : bool := negb (Ascii.eqb c "010").

Definition d := Class perl_digit.
Definition s := Class perl_space.
Definition w := Class perl_word.
Definition dot := Class any_char.

(** Captured groups, newest first. *)
Definition captures := list (nat * string).

Fixpoint take (n : nat) (t : string) : string :=
  match n, t with
  | S n', String c t' => String c (take n' t')
  | _, _ => EmptyString
  end.

Fixpoint drop (n : nat) (t : string) : string :=
  match n, t with
  | S n', String _ t' => drop n' t'
  | _, _ => t
  end.

(** [rmatch r pos t c k]: match [r] at offset [pos], where [t] is the
    input from [pos] on, then continue with [k]; [None] asks the caller
    to backtrack. *)
Fixpoint rmatch {R} (r : regex) (pos : nat) (t : string) (c : captures)
    (k : nat -> string -> captures -> option R) : option R :=
  match r with
  | Empty => k pos t c
  | Class p =>
      match t with
      | String a t' => if p a then k (S pos) t' c else None
      | EmptyString => None
      end
  | Cat r1 r2 => rmatch r1 pos t c (fun pos' t' c' => rmatch r2 pos' t' c' k)
  | Or r1 r2 =>
      match rmatch r1 pos t c k with
      | Some x => Some x
      | None => rmatch r2 pos t c k
      end
  | Star r1 =>
      (fix loop (fuel : nat) (pos : nat) (t : string) (c : captures) : option R :=
         match fuel with
         | O => k pos t c
         | S fuel' =>
             match rmatch r1 pos t c
                     (fun pos' t' c' =>
                        if (pos <? pos')%nat then loop fuel' pos' t' c' else None) with
             | Some x => Some x
             | None => k pos t c
             end
         end) (String.length t) pos t c
  | Bol => if (pos =? 0)%nat then k pos t c else None
  | Group i r1 =>
      rmatch r1 pos t c
        (fun pos' t' c' => k pos' t' ((i, take (pos' - pos) t) :: c'))
  end.

(** The match that starts at [pos]: its end offset and groups. *)
Definition match_at (r : regex) (pos : nat) (t : string) : option (nat * captures) :=
  rmatch r pos t [] (fun pos' _ c' => Some (pos', c')).

(** Leftmost match at or after [pos]: start, end and groups. *)
Fixpoint search (r : regex) (pos : nat) (t : string) : option (nat * nat * captures) :=
  match match_at r pos t with
  | Some (e, c) => Some (pos, e, c)
  | None =>
      match t with
      | String _ t' => search r (S pos) t'
      | EmptyString => None
      end
  end.

Fixpoint lookup_group (i : nat) (c : captures) : string :=
  match c with
  | [] => EmptyString
  | (j, v) :: c' => if (i =? j)%nat then v else lookup_group i c'
  end.

(** [re.FindStringIndex(t)]: [None] is Go's nil. *)
Definition FindStringIndex (r : regex) (t : string) : option (nat * nat) :=
  match search r 0 t with
  | Some (b, e, _) => Some (b, e)
  | None => None
  end.

(** [re.FindStringSubmatch(t)] for a pattern with [n] groups: the whole
    match, then the groups; the empty list is Go's nil. *)
Definition FindStringSubmatch (r : regex) (n : nat) (t : string) : list string :=
  match search r 0 t with
  | Some (b, e, c) =>
      take (e - b) (drop b t) :: List.map (fun i => lookup_group i c) (seq 1 n)
  | None => []
  end.

(** [re.MatchString(t)]. *)
Definition MatchString (r : regex) (t : string) : bool :=
  match search r 0 t with Some _ => true | None => false end.

End Regexp.

(** [strings.HasPrefix(t, prefix)]. *)
Fixpoint HasPrefix (t prefix : string) : bool :=
  match prefix, t with
  | EmptyString, _ => true
  | String a p', String b t' => (Ascii.eqb a b && HasPrefix t' p')%bool
  | String _ _, EmptyString => false
  end.

(** [line[n:]]. *)
Definition slice_from (n : nat) (t : string) : string := Regexp.drop n t.

(** ** The data model shared by both parsers *)

(** The designated name of the environment. *)
Definition world : string := "<world>".

(** [type Match struct].  A finished match owns its maps: the accumulator
    they come from is dropped in the same step, so nothing aliases them. *)
Record Match : Type := mkMatch {
  TotalKills : Z;
  Players : list string;
  Kills : gmap string Z;
  KillsByMeans : gmap string Z
}.

(** [type Matches []Match]. *)
Definition Matches : Type := list Match.

(** [m[k]] on a [map[string]int]: the zero value when [k] is absent. *)
Definition map_index (m : gmap string Z) (k : string) : Z := default 0 (m !! k).

(** [m[k]++] and [m[k]--]. *)
Definition map_incr (m : gmap string Z) (k : string) : gmap string Z :=
  <[k := GoInt.incr (map_index m k)]> m.
Definition map_decr (m : gmap string Z) (k : string) : gmap string Z :=
  <[k := GoInt.decr (map_index m k)]> m.

(** [if _, ok := m[k]; !ok { m[k] = 0 }]. *)
Definition map_ensure (m : gmap string Z) (k : string) : gmap string Z :=
  match m !! k with
  | Some _ => m
  | None => <[k := 0]> m
  end.

(** [slices.Sort] on strings: ascending in the byte order of [<]. *)
Definition slices_Sort (l : list string) : list string := merge_sort String.le l.

(** The order in which [range] visits the keys of a map: Go leaves it
    unspecified, any arrangement of the keys can come out. *)
Record MapOrder : Type := mkMapOrder {
  range_keys : gset string -> list string;
  range_keys_perm : forall ks, range_keys ks ≡ₚ elements ks
}.

(** What a [bufio.Scanner] with the default line splitter gives for a
    reader: the lines in order, then the value of [scanner.Err()]. *)
Record Reader : Type := mkReader {
  lines : list string;
  read_err : option string
}.

Definition text (ls : list string) : Reader := mkReader ls None.

(** ** The state-machine parser *)

Module StateMachine.
Import Regexp.

(** [^\s*\d+:\d+\s|^\s*[\d\s:]+] *)
Definition header_class (c : ascii) : bool :=
  (perl_digit c || perl_space c || Ascii.eqb c ":")%bool.

Definition lineHeaderExpr : regex :=
  Or (Cat Bol (Cat (Star s) (Cat (Plus d) (Cat (Chr ":") (Cat (Plus d) s)))))
     (Cat Bol (Cat (Star s) (Plus (Class header_class)))).

(** [(?:Kill:\s\d+\s\d+\s\d+:\s)(.+)(?:\skilled\s)(.+)(?:\sby\s)([\w]+)] *)
Definition killExpr : regex :=
  Cat (Cat (Lit "Kill:")
         (Cat s (Cat (Plus d) (Cat s (Cat (Plus d) (Cat s (Cat (Plus d)
            (Cat (Chr ":") s))))))))
    (Cat (Group 1 (Plus dot))
       (Cat (Cat s (Cat (Lit "killed") s))
          (Cat (Group 2 (Plus dot))
             (Cat (Cat s (Cat (Lit "by") s))
                (Group 3 (Plus w)))))).

(** [type matchParser struct] *)
Record matchParser : Type := mkMatchParser {
  totalKills : Z;
  players : gset string;
  kills : gmap string Z;
  killsByMeans : gmap string Z
}.

Definition newMatchParser : matchParser := mkMatchParser 0 ∅ ∅ ∅.

(** [type eventParser interface] with its two implementations. *)
Inductive eventParser : Type :=
| lookingForGameParser
| matchParserPtr (m : matchParser).

(** [type logParser struct] *)
Record logParser : Type := mkLogParser {
  evParser : eventParser;
  matches : Matches
}.

Definition newLogParser : logParser := mkLogParser lookingForGameParser [].

(** The body of the loop of [registerKill] over killer and victim. *)
Definition notePlayer (m : matchParser) (player : string) : matchParser :=
  if String.eqb player world then m
  else mkMatchParser (totalKills m) ({[player]} ∪ players m)
         (map_ensure (kills m) player) (killsByMeans m).

Definition registerKill (m : matchParser) (killer killed killedBy : string)
    : matchParser :=
  let m1 := mkMatchParser (GoInt.incr (totalKills m)) (players m) (kills m)
              (killsByMeans m) in
  let m2 := fold_left notePlayer [killer; killed] m1 in
  let kills3 :=
    if String.eqb killer world then map_decr (kills m2) killed
    else if negb (String.eqb killer killed) then map_incr (kills m2) killer
    else kills m2 in
  mkMatchParser (totalKills m2) (players m2) kills3
    (map_incr (killsByMeans m2) killedBy).

(** The keys come out of the map in any order and are sorted next, so
    the order of [range] does not show (see
    [getPlayerList_any_order]). *)
Definition getPlayerList (m : matchParser) : list string :=
  slices_Sort (elements (players m)).

(** The [Match] literal that [parseEvent] builds when it closes a match. *)
Definition finish (m : matchParser) : Match :=
  mkMatch (totalKills m) (getPlayerList m) (kills m) (killsByMeans m).

(** [func (lfg lookingForGameParser) parseEvent] *)
Definition lookingForGameParser_parseEvent (p : logParser) (event : string)
    : logParser * result eventParser :=
  if negb (HasPrefix event "InitGame:") then (p, Ok lookingForGameParser)
  else (p, Ok (matchParserPtr newMatchParser)).

(** [func (m *matchParser) parseEvent] *)
Definition matchParser_parseEvent (m : matchParser) (p : logParser)
    (event : string) : logParser * result eventParser :=
  if HasPrefix event "---" then
    (mkLogParser (evParser p) (matches p ++ [finish m])%list, Ok lookingForGameParser)
  else
    match FindStringSubmatch killExpr 3 event with
    | [_; killer; killed; killedBy] =>
        (p, Ok (matchParserPtr (registerKill m killer killed killedBy)))
    | _ => (p, Ok (matchParserPtr m))
    end.

(** Dispatch through the interface. *)
Definition parseEvent (ev : eventParser) (p : logParser) (event : string)
    : logParser * result eventParser :=
  match ev with
  | lookingForGameParser => lookingForGameParser_parseEvent p event
  | matchParserPtr m => matchParser_parseEvent m p event
  end.

(** [func (p *logParser) parseEvent(event string) error] *)
Definition logParser_parseEvent (p : logParser) (event : string)
    : logParser * option string :=
  match parseEvent (evParser p) p event with
  | (p', Err e) => (p', Some e)
  | (p', Ok nextParser) => (mkLogParser nextParser (matches p'), None)
  end.

Definition malformed (currentLine : Z) : string :=
  "line " +:+ sprint_d currentLine +:+ " is malformed".

Definition unterminated : string :=
  "log entries ended while a match was still open".

(** The [for scanner.Scan()] loop of [ParseLog]. *)
Fixpoint scanLoop (ls : list string) (currentLine : Z) (parser : logParser)
    : result logParser :=
  match ls with
  | [] => Ok parser
  | line :: ls' =>
      let currentLine := GoInt.incr currentLine in
      match FindStringIndex lineHeaderExpr line with
      | None => Err (malformed currentLine)
      | Some (_, e) =>
          let event := slice_from e line in
          match parseEvent (evParser parser) parser event with
          | (_, Err e) => Err ("failed to parse event: " +:+ e)
          | (parser', Ok nextParser) =>
              scanLoop ls' currentLine (mkLogParser nextParser (matches parser'))
          end
      end
  end.

(** [func ParseLog(log io.Reader) (Matches, error)] *)
Definition ParseLog (log : Reader) : result Matches :=
  match scanLoop (lines log) 0 newLogParser with
  | Err e => Err e
  | Ok parser =>
      match read_err log with
      | Some e => Err e
      | None =>
          match evParser parser with
          | matchParserPtr _ => Err unterminated
          | lookingForGameParser => Ok (matches parser)
          end
      end
  end.

End StateMachine.

(** ** The parser that separates matches by [InitGame] alone *)

Module Legacy.
Import Regexp.

(** [(?:\s+\d{1,2}:\d{2}\s)], the prefix both patterns start with. *)
Definition timestamp : regex :=
  Cat (Plus s) (Cat (Cat d (Opt d)) (Cat (Chr ":") (Cat (Cat d d) s))).

(** [^(?:\s+\d{1,2}:\d{2}\s)(InitGame|Kill)] *)
Definition eventExpr : regex :=
  Cat Bol (Cat timestamp (Group 1 (Or (Lit "InitGame") (Lit "Kill")))).

(** [^(?:\s+\d{1,2}:\d{2}\s)(?:Kill:\s[\d\s]+:\s)(.+)(?:\skilled\s)(.+)(?:\sby\s)(.+)] *)
Definition digit_or_space (c : ascii) : bool := (perl_digit c || perl_space c)%bool.

Definition killExpr : regex :=
  Cat Bol (Cat timestamp
    (Cat (Cat (Lit "Kill:") (Cat s (Cat (Plus (Class digit_or_space)) (Cat (Chr ":") s))))
       (Cat (Group 1 (Plus dot))
          (Cat (Cat s (Cat (Lit "killed") s))
             (Cat (Group 2 (Plus dot))
                (Cat (Cat s (Cat (Lit "by") s))
                   (Group 3 (Plus dot)))))))).

(** [type matchInfo struct] *)
Record matchInfo : Type := mkMatchInfo {
  totalKills : Z;
  players : gset string;
  kills : gmap string Z;
  killsByMeans : gmap string Z
}.

Definition newMatchInfo : matchInfo := mkMatchInfo 0 ∅ ∅ ∅.

(** The body of the loop of [registerKillEvent] over killer and victim. *)
Definition notePlayer (m : matchInfo) (player : string) : matchInfo :=
  if String.eqb player world then m
  else mkMatchInfo (totalKills m) ({[player]} ∪ players m)
         (map_ensure (kills m) player) (killsByMeans m).

Definition registerKillEvent (m : matchInfo) (killer killed means : string)
    : matchInfo :=
  let m2 := fold_left notePlayer [killer; killed] m in
  let kills3 :=
    if String.eqb killer world then map_decr (kills m2) killed
    else map_incr (kills m2) killer in
  mkMatchInfo (totalKills m2) (players m2) kills3
    (map_incr (killsByMeans m2) means).

(** [skipInitGameEvent]: the lines left after the first one that matches
    [eventExpr]. *)
Fixpoint skipInitGameEvent (ls : list string) : list string :=
  match ls with
  | [] => []
  | line :: ls' =>
      if MatchString eventExpr line then ls' else skipInitGameEvent ls'
  end.

(** Whether [skipInitGameEvent] left its loop by [break]; if not, the
    scanner is exhausted and [scanner.Err()] is the reader's error. *)
Definition foundEvent (ls : list string) : bool :=
  existsb (MatchString eventExpr) ls.

Section WithOrder.
Variable o : MapOrder.

(** The keys as [range] hands them out, unsorted. *)
Definition getPlayerList (m : matchInfo) : list string :=
  range_keys o (players m).

(** The [Match] literal that [ParseLog] builds, in its loop and after it. *)
Definition finish (m : matchInfo) : Match :=
  mkMatch (totalKills m) (getPlayerList m) (kills m) (killsByMeans m).

(** The [for scanner.Scan()] loop of [ParseLog]; it returns the matches
    closed so far and the accumulator of the match still open. *)
Fixpoint scanLoop (ls : list string) (matches : Matches) (currentMatch : matchInfo)
    : result (Matches * matchInfo) :=
  match ls with
  | [] => Ok (matches, currentMatch)
  | line :: ls' =>
      match FindStringSubmatch eventExpr 1 line with
      | [_; event] =>
          if String.eqb event "InitGame" then
            scanLoop ls' (matches ++ [finish currentMatch])%list newMatchInfo
          else
            match FindStringSubmatch killExpr 3 line with
            | [_; killer; killed; killedBy] =>
                scanLoop ls' matches
                  (registerKillEvent currentMatch killer killed killedBy)
            | _ => Err ("failed to find expected kill event at line " +:+ line)
            end
      | _ => scanLoop ls' matches currentMatch
      end
  end.

(** [func ParseLog(source io.Reader) (Matches, error)] *)
Definition ParseLog (source : Reader) : result Matches :=
  match (if foundEvent (lines source) then None else read_err source) with
  | Some e => Err ("failed to read log file: " +:+ e)
  | None =>
      match scanLoop (skipInitGameEvent (lines source)) [] newMatchInfo with
      | Err e => Err e
      | Ok (matches, currentMatch) =>
          let matches := (matches ++ [finish currentMatch])%list in
          match read_err source with
          | Some e => Err ("failed to read log file: " +:+ e)
          | None => Ok matches
          end
      end
  end.

End WithOrder.

(** One order [range] may follow, and another. *)
Program Definition ascending : MapOrder :=
  mkMapOrder (fun ks => slices_Sort (elements ks)) _.
Next Obligation. intros ks. apply merge_sort_Permutation. Qed.

Program Definition descending : MapOrder :=
  mkMapOrder (fun ks => reverse (slices_Sort (elements ks))) _.
Next Obligation.
  intros ks. rewrite reverse_Permutation. apply merge_sort_Permutation.
Qed.

End Legacy.

(** ** JSON text *)

Module Json.

Definition quote : ascii := "034"%char.
Definition backslash : ascii := "092"%char.

Definition byte (c : ascii) : N := N_of_ascii c.
Definition in_bytes (lo hi : N) (c : ascii) : bool :=
  ((lo <=? byte c) && (byte c <=? hi))%N%bool.

Definition hex_digit (n : N) : ascii :=
  ascii_of_N (if (n <? 10)%N then 48 + n else 87 + n).

(** *** What [json.Marshal] writes for a [Match]

    Modelled from the documentation and the encoder of Go's
    [encoding/json] (the package is not part of the repository): a struct
    is an object with its tagged field names in declaration order, an
    [int] is written in decimal, a slice as an array, a map as an object
    with its keys sorted, a string quoted and escaped with the HTML-safe
    rules, invalid UTF-8 replaced by U+FFFD.  The parsers build their
    slices and maps with [make], so none is nil and none is written as
    [null]. *)

(** A byte below 0x80 inside a string. *)
Definition escape_ascii (c : ascii) : string :=
  if (Ascii.eqb c quote || Ascii.eqb c backslash)%bool then String backslash (String c "")
  else if Ascii.eqb c "008" then String backslash "b"
  else if Ascii.eqb c "012" then String backslash "f"
  else if Ascii.eqb c "010" then String backslash "n"
  else if Ascii.eqb c "013" then String backslash "r"
  else if Ascii.eqb c "009" then String backslash "t"
  else if ((byte c <? 32)%N || Ascii.eqb c "<" || Ascii.eqb c ">" || Ascii.eqb c "&")%bool
  then String backslash
         (String "u" (String "0" (String "0"
            (String (hex_digit (byte c / 16)) (String (hex_digit (byte c mod 16)) "")))))
  else String c "".

Definition continuation (c : ascii) : bool := in_bytes 128 191 c.

(** [utf8.DecodeRuneInString] at a lead byte [c] of 0x80 or more,
    followed by [t]: the number of continuation bytes of a well-formed
    sequence, [None] for [RuneError] of width 1. *)
Definition decode_tail (c : ascii) (t : string) : option nat :=
  let second lo hi :=
    match t with
    | String c1 t1 => if in_bytes lo hi c1 then Some t1 else None
    | EmptyString => None
    end in
  let cont (r : option string) :=
    match r with
    | Some (String c2 t2) => if continuation c2 then Some t2 else None
    | _ => None
    end in
  let done (n : nat) (r : option string) :=
    match r with Some _ => Some n | None => None end in
  if in_bytes 194 223 c then done 1%nat (second 128 191)%N
  else if in_bytes 224 224 c then done 2%nat (cont (second 160 191)%N)
  else if (in_bytes 225 236 c || in_bytes 238 239 c)%bool
    then done 2%nat (cont (second 128 191)%N)
  else if in_bytes 237 237 c then done 2%nat (cont (second 128 159)%N)
  else if in_bytes 240 240 c then done 3%nat (cont (cont (second 144 191)%N))
  else if in_bytes 241 243 c then done 3%nat (cont (cont (second 128 191)%N))
  else if in_bytes 244 244 c then done 3%nat (cont (cont (second 128 143)%N))
  else None.

(** U+2028 and U+2029 are E2 80 A8 and E2 80 A9. *)
Definition line_separator (c : ascii) (t : string) : option ascii :=
  match t with
  | String c1 (String c2 _) =>
      if (in_bytes 226 226 c && in_bytes 128 128 c1 && in_bytes 168 169 c2)%bool
      then Some (hex_digit (byte c2 - 160)) else None
  | _ => None
  end.

(** Where the encoder stands in a multi-byte sequence. *)
Inductive pending : Type :=
| Fresh
| Copy (n : nat)
| Skip (n : nat).

Fixpoint encode_bytes (p : pending) (t : string) : string :=
  match t with
  | EmptyString => EmptyString
  | String c t' =>
      match p with
      | Copy (S n) => String c (encode_bytes (Copy n) t')
      | Skip (S n) => encode_bytes (Skip n) t'
      | _ =>
          if (byte c <? 128)%N then escape_ascii c +:+ encode_bytes Fresh t'
          else
            match decode_tail c t' with
            | None => String backslash "ufffd" +:+ encode_bytes Fresh t'
            | Some n =>
                match line_separator c t' with
                | Some h =>
                    String backslash (String "u" (String "2" (String "0"
                      (String "2" (String h "")))))
                    +:+ encode_bytes (Skip n) t'
                | None => String c (encode_bytes (Copy n) t')
                end
            end
      end
  end.

Definition encode_string (t : string) : string :=
  String quote (encode_bytes Fresh t +:+ String quote "").

Definition encode_int (z : Z) : string := sprint_d z.

(** Members or elements with commas in between. *)
Fixpoint join (parts : list string) : string :=
  match parts with
  | [] => ""
  | [x] => x
  | x :: rest => x +:+ "," +:+ join rest
  end.

Definition encode_array (l : list string) : string :=
  "[" +:+ join (List.map encode_string l) +:+ "]".

Definition key_le (a b : string * Z) : Prop := String.le (fst a) (fst b).
#[export] Instance key_le_dec : RelDecision key_le.
Proof. intros a b. unfold key_le. apply _. Defined.

Definition encode_member (kv : string * Z) : string :=
  encode_string (fst kv) +:+ ":" +:+ encode_int (snd kv).

Definition encode_map (m : gmap string Z) : string :=
  "{" +:+ join (List.map encode_member (merge_sort key_le (map_to_list m))) +:+ "}".

Definition field (name : string) (value : string) : string :=
  String quote (name +:+ String quote (":" +:+ value)).

(** [json.Marshal(game)]; it has no failing case for this struct. *)
Definition Marshal (game : Match) : result string :=
  Ok ("{" +:+ join [ field "total_kills" (encode_int (TotalKills game));
                     field "players" (encode_array (Players game));
                     field "kills" (encode_map (Kills game));
                     field "kills_by_means" (encode_map (KillsByMeans game)) ]
       +:+ "}").

End Json.

(** ** The result formatter *)

(** The loop of [MarshalJSON]: [i] is the index of the head of [games],
    [len] is [len(matches)] and [buff] what the buffer holds so far.  The
    index stays below [len], so [i+1] does not overflow. *)
Fixpoint marshalLoop (i len : Z) (games : list Match) (buff : string) : result string :=
  match games with
  | [] => Ok buff
  | game :: rest =>
      let buff := buff +:+ String Json.quote ("game_" +:+ sprint_d (i + 1)
                             +:+ String Json.quote ":") in
      match Json.Marshal game with
      | Err e => Err e
      | Ok gameJSON =>
          let buff := buff +:+ gameJSON in
          let hasNext := (i <? len - 1)%Z in
          let buff := if hasNext then buff +:+ "," else buff in
          marshalLoop (i + 1) len rest buff
      end
  end.

(** [func (matches Matches) MarshalJSON() ([]byte, error)] *)
Definition MarshalJSON (matches : Matches) : result string :=
  match marshalLoop 0 (Z.of_nat (length matches)) matches "{" with
  | Err e => Err e
  | Ok buff => Ok (buff +:+ "}")
  end.

(** ** Reading the member names of a JSON object back

    A scanner for the text of one JSON object.  At the top level it
    follows the grammar (member name, colon, value, then a comma or the
    closing brace); inside a member's value it only tracks strings and
    nesting.  Names come back as they are written between their quotes. *)

Module JsonKeys.
Import Json.

Inductive mode : Type := Out | Str | Esc.

Inductive phase : Type :=
| Start                               (* before the opening brace *)
| FirstKey                            (* after it: a name or the closing brace *)
| NextKey                             (* after a comma: a name *)
| KeyStr (cur : string)               (* inside a name *)
| KeyEsc (cur : string)               (* inside a name, after a backslash *)
| Colon                               (* after a name *)
| Value                               (* after the colon *)
| Scalar                              (* inside a number or a literal *)
| ValStr                              (* inside a string value *)
| ValEsc
| Nested (depth : nat) (m : mode)     (* inside an array or object value *)
| AfterValue                          (* a comma or the closing brace *)
| Done.

Definition is_ws (c : ascii) : bool :=
  (Ascii.eqb c " " || Ascii.eqb c "009" || Ascii.eqb c "010" || Ascii.eqb c "013")%bool.
Definition is_open (c : ascii) : bool := (Ascii.eqb c "{" || Ascii.eqb c "[")%bool.
Definition is_close (c : ascii) : bool := (Ascii.eqb c "}" || Ascii.eqb c "]")%bool.

Definition snoc (t : string) (c : ascii) : string := t +:+ String c "".

Definition step (st : phase * list string) (c : ascii) : option (phase * list string) :=
  let '(ph, keys) := st in
  match ph with
  | Start =>
      if is_ws c then Some (Start, keys)
      else if Ascii.eqb c "{" then Some (FirstKey, keys) else None
  | FirstKey =>
      if is_ws c then Some (FirstKey, keys)
      else if Ascii.eqb c quote then Some (KeyStr "", keys)
      else if Ascii.eqb c "}" then Some (Done, keys) else None
  | NextKey =>
      if is_ws c then Some (NextKey, keys)
      else if Ascii.eqb c quote then Some (KeyStr "", keys) else None
  | KeyStr cur =>
      if Ascii.eqb c quote then Some (Colon, (keys ++ [cur])%list)
      else if Ascii.eqb c backslash then Some (KeyEsc (snoc cur c), keys)
      else Some (KeyStr (snoc cur c), keys)
  | KeyEsc cur => Some (KeyStr (snoc cur c), keys)
  | Colon =>
      if is_ws c then Some (Colon, keys)
      else if Ascii.eqb c ":" then Some (Value, keys) else None
  | Value =>
      if is_ws c then Some (Value, keys)
      else if is_open c then Some (Nested 1 Out, keys)
      else if Ascii.eqb c quote then Some (ValStr, keys)
      else if (is_close c || Ascii.eqb c "," || Ascii.eqb c ":")%bool then None
      else Some (Scalar, keys)
  | Scalar =>
      if is_ws c then Some (AfterValue, keys)
      else if Ascii.eqb c "," then Some (NextKey, keys)
      else if Ascii.eqb c "}" then Some (Done, keys)
      else if (is_open c || is_close c || Ascii.eqb c quote || Ascii.eqb c ":")%bool
      then None
      else Some (Scalar, keys)
  | ValStr =>
      if Ascii.eqb c quote then Some (AfterValue, keys)
      else if Ascii.eqb c backslash then Some (ValEsc, keys)
      else Some (ValStr, keys)
  | ValEsc => Some (ValStr, keys)
  | Nested O _ => None
  | Nested (S n) Out =>
      if is_open c then Some (Nested (S (S n)) Out, keys)
      else if is_close c then
        Some (match n with O => AfterValue | S _ => Nested n Out end, keys)
      else if Ascii.eqb c quote then Some (Nested (S n) Str, keys)
      else Some (Nested (S n) Out, keys)
  | Nested (S n) Str =>
      if Ascii.eqb c quote then Some (Nested (S n) Out, keys)
      else if Ascii.eqb c backslash then Some (Nested (S n) Esc, keys)
      else Some (Nested (S n) Str, keys)
  | Nested (S n) Esc => Some (Nested (S n) Str, keys)
  | AfterValue =>
      if is_ws c then Some (AfterValue, keys)
      else if Ascii.eqb c "," then Some (NextKey, keys)
      else if Ascii.eqb c "}" then Some (Done, keys) else None
  | Done => if is_ws c then Some (Done, keys) else None
  end.

Fixpoint scan (st : phase * list string) (t : string) : option (phase * list string) :=
  match t with
  | EmptyString => Some st
  | String c t' =>
      match step st c with
      | Some st' => scan st' t'
      | None => None
      end
  end.

(** The member names of the object written in [t], in the order of the
    text; [None] when [t] is not one object. *)
Definition object_keys (t : string) : option (list string) :=
  match scan (Start, []) t with
  | Some (Done, keys) => Some keys
  | _ => None
  end.

End JsonKeys.

(** The name of the [k]-th member, counting from one. *)
Definition game_key (k : nat) : string := "game_" +:+ sprint_d (Z.of_nat k).

(** ** Vocabulary of the statements *)

(** The event of a line for the state-machine parser: what follows the
    header, when there is one. *)
Definition payload (line : string) : option string :=
  match Regexp.FindStringIndex StateMachine.lineHeaderExpr line with
  | Some (_, e) => Some (slice_from e line)
  | None => None
  end.

(** An event that an open match registers as a kill. *)
Definition is_kill (event : string) : bool :=
  (negb (HasPrefix event "---")
   && match Regexp.FindStringSubmatch StateMachine.killExpr 3 event with
      | [_; _; _; _] => true
      | _ => false
      end)%bool.

Definition kill_count (events : list string) : Z :=
  Z.of_nat (length (filter (fun e => is_kill e = true) events)).

(** The events seen by each match that gets closed: [cur] holds the
    events of the match that is open, if one is. *)
Fixpoint sessions (cur : option (list string)) (events : list string)
    : list (list string) :=
  match events with
  | [] => []
  | e :: es =>
      match cur with
      | None =>
          if HasPrefix e "InitGame:" then sessions (Some []) es else sessions None es
      | Some body =>
          if HasPrefix e "---" then body :: sessions None es
          else sessions (Some (body ++ [e])%list) es
      end
  end.

(** Whether a match is open after [events]. *)
Fixpoint open_after (open : bool) (events : list string) : bool :=
  match events with
  | [] => open
  | e :: es =>
      if open then open_after (negb (HasPrefix e "---")) es
      else open_after (HasPrefix e "InitGame:") es
  end.

(** One step of a parser from the outside: [p.parseEvent(event)]. *)
Definition feed (p : StateMachine.logParser) (event : string) : StateMachine.logParser :=
  fst (StateMachine.logParser_parseEvent p event).

(** A line with no digit, colon or white space in front, the empty line
    included. *)
Definition headless (line : string) : Prop :=
  match line with
  | EmptyString => True
  | String c _ => StateMachine.header_class c = false
  end.

(** The players of a match and the keys of its kills agree. *)
Definition roster_matches_kills (m : Match) : Prop :=
  length (Players m) = size (Kills m).

Definition sorted_without_duplicates (l : list string) : Prop :=
  Sorted String.le l /\ NoDup l.

(** A counter that [++] moves up by one, and one that [--] moves down by
    one, without leaving the range of [int]. *)
Definition can_incr (z : Z) : Prop := GoInt.min_int <= z < GoInt.max_int.
Definition can_decr (z : Z) : Prop := GoInt.min_int < z <= GoInt.max_int.

(** Whether the parser holds an open match. *)
Definition match_open (p : StateMachine.logParser) : bool :=
  match StateMachine.evParser p with
  | StateMachine.matchParserPtr _ => true
  | StateMachine.lookingForGameParser => false
  end.

(** Every line of [ls] has a header and [events] are what follows them. *)
Definition events_of (ls events : list string) : Prop :=
  Forall2 (fun l e => payload l = Some e) ls events.

(** Every byte of [t] passes [p]. *)
Fixpoint all_bytes (p : ascii -> bool) (t : string) : bool :=
  match t with
  | EmptyString => true
  | String c t' => (p c && all_bytes p t')%bool
  end.

(** The bytes of a number in decimal. *)
Definition number_byte (c : ascii) : bool :=
  (Regexp.perl_digit c || Ascii.eqb c "-")%bool.

(** The [n] bytes in front of [t] are continuation bytes of UTF-8. *)
Fixpoint continuations (n : nat) (t : string) : Prop :=
  match n with
  | O => True
  | S n' =>
      match t with
      | String c t' => Json.continuation c = true /\ continuations n' t'
      | EmptyString => False
      end
  end.

(** Text that takes the scanner through a whole value nested in a
    member's value, and text that keeps it inside a string there. *)
Definition value_text (t : string) : Prop :=
  forall d ks, JsonKeys.scan (JsonKeys.Nested (S d) JsonKeys.Out, ks) t
               = Some (JsonKeys.Nested (S d) JsonKeys.Out, ks).

Definition string_text (t : string) : Prop :=
  forall d ks, JsonKeys.scan (JsonKeys.Nested (S d) JsonKeys.Str, ks) t
               = Some (JsonKeys.Nested (S d) JsonKeys.Str, ks).

(** The accumulator of an open match after an event that is no divider. *)
Definition apply_event (m : StateMachine.matchParser) (event : string)
    : StateMachine.matchParser :=
  match Regexp.FindStringSubmatch StateMachine.killExpr 3 event with
  | [_; killer; killed; killedBy] => StateMachine.registerKill m killer killed killedBy
  | _ => m
  end.

(** The match that the events seen while it was open add up to. *)
Definition match_of_session (body : list string) : Match :=
  StateMachine.finish (fold_left apply_event body StateMachine.newMatchParser).

(** The sum of the counts a map holds. *)
Definition sum_values (m : gmap string Z) : Z :=
  map_fold (fun _ v acc => v + acc) 0 m.

(** A line that the parser delimited by [InitGame] takes as a separator. *)
Definition is_InitGame_line (line : string) : bool :=
  match Regexp.FindStringSubmatch Legacy.eventExpr 1 line with
  | [_; event] => String.eqb event "InitGame"
  | _ => false
  end.

(** A pattern without capturing groups. *)
Fixpoint group_free (r : Regexp.regex) : bool :=
  match r with
  | Regexp.Cat r1 r2 | Regexp.Or r1 r2 => (group_free r1 && group_free r2)%bool
  | Regexp.Star r1 => group_free r1
  | Regexp.Group _ _ => false
  | _ => true
  end.

(** What [json.Marshal] returns for a match, as text. *)
Definition marshalled (game : Match) : string :=
  match Json.Marshal game with
  | Ok t => t
  | Err _ => ""
  end.

(** The members of the object for [games], the first of them numbered [k]. *)
Fixpoint members (k : nat) (games : list Match) : list string :=
  match games with
  | [] => []
  | game :: rest =>
      (String Json.quote (game_key k +:+ String Json.quote ":") +:+ marshalled game)
      :: members (S k) rest
  end.

(** What registering a kill does to the entry of [q] in the kills: the
    loop over killer and victim first, the credit or the penalty next. *)
Definition tally_update (killer killed q : string) (entry : option Z) : option Z :=
  let noted :=
    if ((String.eqb q killer || String.eqb q killed) && negb (String.eqb q world))%bool
    then Some (default 0 entry) else entry in
  if String.eqb killer world then
    if String.eqb q killed then Some (GoInt.decr (default 0 noted)) else noted
  else if (negb (String.eqb killer killed) && String.eqb q killer)%bool
       then Some (GoInt.incr (default 0 noted)) else noted.

(** * Theorems *)

Local Open Scope list_scope.

(** ** Integers *)

Module GoIntFacts.
Import GoInt.

Lemma int_wrap_id z : in_range z -> int_wrap z = z.
Proof.
unfold in_range, int_wrap, min_int, max_int, bits. intros Hz.
rewrite Z.mod_small; lia.
Qed.

Lemma int_wrap_range z : in_range (int_wrap z).
Proof.
unfold in_range, int_wrap, min_int, max_int, bits.
pose proof (Z.mod_pos_bound (z + 2 ^ (64 - 1)) (2 ^ 64)). lia.
Qed.

Lemma incr_small z : min_int <= z < max_int -> incr z = z + 1.
Proof.
intros Hz. apply int_wrap_id. unfold in_range, min_int, max_int, bits in *. lia.
Qed.

Lemma decr_small z : min_int < z <= max_int -> decr z = z - 1.
Proof.
intros Hz. apply int_wrap_id. unfold in_range, min_int, max_int, bits in *. lia.
Qed.

Lemma int_wrap_incr z : int_wrap (int_wrap z + 1) = int_wrap (z + 1).
Proof.
unfold int_wrap, bits.
replace (((z + 2 ^ (64 - 1)) mod 2 ^ 64 - 2 ^ (64 - 1)) + 1 + 2 ^ (64 - 1))
  with ((z + 2 ^ (64 - 1)) mod 2 ^ 64 + 1) by lia.
replace (z + 1 + 2 ^ (64 - 1)) with ((z + 2 ^ (64 - 1)) + 1) by lia.
rewrite Zplus_mod_idemp_l. reflexivity.
Qed.

Lemma incr_of_nat (n : nat) : Z.of_nat n < max_int -> incr (Z.of_nat n) = Z.of_nat (S n).
Proof.
  intros Hn. rewrite incr_small; [lia |].
  unfold min_int, max_int, bits in *. lia.
Qed.

End GoIntFacts.


(** ** Maps *)

Section MapFacts.
Implicit Types (m : gmap string Z) (k q : string).

Lemma map_index_ensure m k q : map_index (map_ensure m k) q = map_index m q.
Proof.
  unfold map_index, map_ensure. destruct (m !! k) eqn:Hk; [done |].
  destruct (decide (k = q)) as [-> | Hne].
  - by rewrite lookup_insert_eq, Hk.
  - by rewrite lookup_insert_ne.
Qed.

Lemma lookup_ensure_is_Some m k : is_Some (map_ensure m k !! k).
Proof.
  unfold map_ensure. destruct (m !! k) eqn:Hk; [by rewrite Hk |].
  rewrite lookup_insert_eq. eauto.
Qed.

Lemma lookup_ensure_ne m k q : k ≠ q -> map_ensure m k !! q = m !! q.
Proof.
  intros Hne. unfold map_ensure. destruct (m !! k); [done |].
  by rewrite lookup_insert_ne.
Qed.

Lemma dom_ensure m k : dom (map_ensure m k) = {[k]} ∪ dom m.
Proof.
  unfold map_ensure. destruct (m !! k) eqn:Hk.
  - assert (k ∈ dom m) by (apply elem_of_dom; eauto). set_solver.
  - apply dom_insert_L.
Qed.

Lemma dom_map_incr m k : dom (map_incr m k) = {[k]} ∪ dom m.
Proof. apply dom_insert_L. Qed.

Lemma dom_map_decr m k : dom (map_decr m k) = {[k]} ∪ dom m.
Proof. apply dom_insert_L. Qed.

Lemma map_index_incr m k : map_index (map_incr m k) k = GoInt.incr (map_index m k).
Proof. unfold map_incr, map_index at 1. by rewrite lookup_insert_eq. Qed.

Lemma map_index_decr m k : map_index (map_decr m k) k = GoInt.decr (map_index m k).
Proof. unfold map_decr, map_index at 1. by rewrite lookup_insert_eq. Qed.

Lemma map_index_incr_ne m k q : k ≠ q -> map_index (map_incr m k) q = map_index m q.
Proof. intros Hne. unfold map_incr, map_index. by rewrite lookup_insert_ne. Qed.

Lemma map_index_decr_ne m k q : k ≠ q -> map_index (map_decr m k) q = map_index m q.
Proof. intros Hne. unfold map_decr, map_index. by rewrite lookup_insert_ne. Qed.

End MapFacts.

Lemma eqb_world_false (player : string) : player ≠ world -> String.eqb player world = false.
Proof. intros Hne. by apply String.eqb_neq. Qed.

Lemma eqb_world_true : String.eqb world world = true.
Proof. apply String.eqb_refl. Qed.

(** ** Kill registration in the state-machine parser *)

Module RegisterKill.
Import StateMachine.

Lemma notePlayer_world m : notePlayer m world = m.
Proof. reflexivity. Qed.

Lemma notePlayer_player m player :
  player ≠ world ->
  notePlayer m player =
    mkMatchParser (totalKills m) ({[player]} ∪ players m)
      (map_ensure (kills m) player) (killsByMeans m).
Proof. intros Hne. unfold notePlayer. by rewrite eqb_world_false. Qed.

(** [registerKill] adds one to [totalKills], whoever the killer is. *)
Lemma registerKill_totalKills m killer killed killedBy :
  totalKills (registerKill m killer killed killedBy) = GoInt.incr (totalKills m).
Proof.
  unfold registerKill, notePlayer. simpl.
  destruct (String.eqb killer world), (String.eqb killed world); reflexivity.
Qed.

(** The cause is counted, whoever the killer is. *)
Lemma registerKill_killsByMeans m killer killed killedBy :
  killsByMeans (registerKill m killer killed killedBy)
  = map_incr (killsByMeans m) killedBy.
Proof.
  unfold registerKill, notePlayer. simpl.
  destruct (String.eqb killer world), (String.eqb killed world); reflexivity.
Qed.

(** A kill by the environment of a player. *)
Lemma registerKill_world m killed killedBy :
  killed ≠ world ->
  registerKill m world killed killedBy =
    mkMatchParser (GoInt.incr (totalKills m)) ({[killed]} ∪ players m)
      (map_decr (map_ensure (kills m) killed) killed)
      (map_incr (killsByMeans m) killedBy).
Proof.
  intros Hne. unfold registerKill. simpl. rewrite notePlayer_world.
  rewrite notePlayer_player by done. reflexivity.
Qed.

(** A player who is killer and victim at once. *)
Lemma registerKill_self m player killedBy :
  player ≠ world ->
  registerKill m player player killedBy =
    mkMatchParser (GoInt.incr (totalKills m)) ({[player]} ∪ players m)
      (map_ensure (kills m) player)
      (map_incr (killsByMeans m) killedBy).
Proof.
  intros Hne. unfold registerKill. simpl.
  rewrite !notePlayer_player by done. simpl.
  rewrite eqb_world_false by done. rewrite String.eqb_refl. simpl.
  f_equal; [set_solver |].
  apply map_eq. intros q. destruct (decide (player = q)) as [<- | Hq].
  - unfold map_ensure at 1.
    destruct (lookup_ensure_is_Some (kills m) player) as [v Hv]. by rewrite Hv.
  - by rewrite lookup_ensure_ne.
Qed.

(** The environment gets no entry unless it is the victim of its own
    kill. *)
Lemma registerKill_players m killer killed killedBy :
  players (registerKill m killer killed killedBy)
  = list_to_set (filter (fun x => x ≠ world) [killer; killed]) ∪ players m.
Proof.
  unfold registerKill, notePlayer. simpl.
  destruct (String.eqb_spec killer world) as [-> | Hk],
           (String.eqb_spec killed world) as [-> | Hv]; simpl.
  all: rewrite ?filter_cons, ?filter_nil; repeat case_decide; try done; simpl.
  all: set_solver.
Qed.

Lemma registerKill_dom_kills m killer killed killedBy :
  ¬ (killer = world ∧ killed = world) ->
  dom (kills (registerKill m killer killed killedBy))
  = list_to_set (filter (fun x => x ≠ world) [killer; killed]) ∪ dom (kills m).
Proof.
  intros Hnot. unfold registerKill, notePlayer. simpl.
  destruct (String.eqb_spec killer world) as [-> | Hk],
           (String.eqb_spec killed world) as [-> | Hv]; simpl.
  all: rewrite ?filter_cons, ?filter_nil; repeat case_decide; try done; simpl.
  - tauto.
  - rewrite dom_map_decr, dom_ensure. set_solver.
  - rewrite eqb_world_false by done. simpl.
    rewrite dom_map_incr, dom_ensure. set_solver.
  - destruct (String.eqb_spec killer killed) as [-> | Hkv]; simpl.
    + rewrite !dom_ensure. set_solver.
    + rewrite dom_map_incr, !dom_ensure. set_solver.
Qed.

End RegisterKill.

(** ** Kill registration in the parser delimited by [InitGame] *)

Module RegisterKillEvent.
Import Legacy.

Lemma legacy_notePlayer_world m : notePlayer m world = m.
Proof. reflexivity. Qed.

Lemma legacy_notePlayer_player m player :
  player ≠ world ->
  notePlayer m player =
    mkMatchInfo (totalKills m) ({[player]} ∪ players m)
      (map_ensure (kills m) player) (killsByMeans m).
Proof. intros Hne. unfold notePlayer. by rewrite eqb_world_false. Qed.

(** [registerKillEvent] never touches [totalKills]. *)
Lemma registerKillEvent_totalKills m killer killed means :
  totalKills (registerKillEvent m killer killed means) = totalKills m.
Proof.
  unfold registerKillEvent, notePlayer. simpl.
  destruct (String.eqb killer world), (String.eqb killed world); reflexivity.
Qed.

Lemma registerKillEvent_killsByMeans m killer killed means :
  killsByMeans (registerKillEvent m killer killed means)
  = map_incr (killsByMeans m) means.
Proof.
  unfold registerKillEvent, notePlayer. simpl.
  destruct (String.eqb killer world), (String.eqb killed world); reflexivity.
Qed.

Lemma registerKillEvent_world m killed means :
  killed ≠ world ->
  registerKillEvent m world killed means =
    mkMatchInfo (totalKills m) ({[killed]} ∪ players m)
      (map_decr (map_ensure (kills m) killed) killed)
      (map_incr (killsByMeans m) means).
Proof.
  intros Hne. unfold registerKillEvent. simpl. rewrite legacy_notePlayer_world.
  rewrite legacy_notePlayer_player by done. reflexivity.
Qed.

(** Here the killer's tally goes up even when the victim is the killer. *)
Lemma registerKillEvent_self m player means :
  player ≠ world ->
  registerKillEvent m player player means =
    mkMatchInfo (totalKills m) ({[player]} ∪ players m)
      (map_incr (map_ensure (kills m) player) player)
      (map_incr (killsByMeans m) means).
Proof.
  intros Hne. unfold registerKillEvent. simpl.
  rewrite !legacy_notePlayer_player by done. simpl.
  rewrite eqb_world_false by done.
  f_equal; [set_solver |].
  f_equal. apply map_eq. intros q. destruct (decide (player = q)) as [<- | Hq].
  - unfold map_ensure at 1.
    destruct (lookup_ensure_is_Some (kills m) player) as [v Hv]. by rewrite Hv.
  - by rewrite lookup_ensure_ne.
Qed.

Lemma registerKillEvent_players m killer killed means :
  players (registerKillEvent m killer killed means)
  = list_to_set (filter (fun x => x ≠ world) [killer; killed]) ∪ players m.
Proof.
  unfold registerKillEvent, notePlayer. simpl.
  destruct (String.eqb_spec killer world) as [-> | Hk],
           (String.eqb_spec killed world) as [-> | Hv]; simpl.
  all: rewrite ?filter_cons, ?filter_nil; repeat case_decide; try done; simpl.
  all: set_solver.
Qed.

Lemma registerKillEvent_dom_kills m killer killed means :
  ¬ (killer = world ∧ killed = world) ->
  dom (kills (registerKillEvent m killer killed means))
  = list_to_set (filter (fun x => x ≠ world) [killer; killed]) ∪ dom (kills m).
Proof.
  intros Hnot. unfold registerKillEvent, notePlayer. simpl.
  destruct (String.eqb_spec killer world) as [-> | Hk],
           (String.eqb_spec killed world) as [-> | Hv]; simpl.
  all: rewrite ?filter_cons, ?filter_nil; repeat case_decide; try done; simpl.
  - tauto.
  - rewrite dom_map_decr, dom_ensure. set_solver.
  - rewrite dom_map_incr, dom_ensure. set_solver.
  - rewrite dom_map_incr, !dom_ensure. set_solver.
Qed.

End RegisterKillEvent.

(** ** Kills by the environment *)

Lemma lookup_decr_ensure (m : gmap string Z) (k : string) :
  map_decr (map_ensure m k) k !! k = Some (GoInt.decr (map_index m k)).
Proof. unfold map_decr. by rewrite lookup_insert_eq, map_index_ensure. Qed.

Lemma lookup_decr_ensure_ne (m : gmap string Z) (k q : string) :
  k ≠ q -> map_decr (map_ensure m k) k !! q = m !! q.
Proof.
  intros Hne. unfold map_decr. rewrite lookup_insert_ne by done.
  by apply lookup_ensure_ne.
Qed.

(** C5. When the environment kills a player, the victim's tally goes
    down by one and neither the set of players nor the map of kills gets
    an entry for the environment; so it is in both parsers. *)
Theorem world_kill_decrements_victim
    (victim cause : string) (sm : StateMachine.matchParser) (lg : Legacy.matchInfo) :
  victim ≠ world ->
  can_decr (map_index (StateMachine.kills sm) victim) ->
  can_decr (map_index (Legacy.kills lg) victim) ->
  (let sm' := StateMachine.registerKill sm world victim cause in
   StateMachine.kills sm' !! victim = Some (map_index (StateMachine.kills sm) victim - 1)
   ∧ (world ∈ StateMachine.players sm' ↔ world ∈ StateMachine.players sm)
   ∧ StateMachine.kills sm' !! world = StateMachine.kills sm !! world)
  ∧
  (let lg' := Legacy.registerKillEvent lg world victim cause in
   Legacy.kills lg' !! victim = Some (map_index (Legacy.kills lg) victim - 1)
   ∧ (world ∈ Legacy.players lg' ↔ world ∈ Legacy.players lg)
   ∧ Legacy.kills lg' !! world = Legacy.kills lg !! world).
Proof.
  intros Hne Hsm Hlg. split.
  - rewrite RegisterKill.registerKill_world by done. simpl.
    rewrite lookup_decr_ensure, GoIntFacts.decr_small by done.
    split; [done |]. split; [set_solver |].
    by apply lookup_decr_ensure_ne.
  - rewrite RegisterKillEvent.registerKillEvent_world by done. simpl.
    rewrite lookup_decr_ensure, GoIntFacts.decr_small by done.
    split; [done |]. split; [set_solver |].
    by apply lookup_decr_ensure_ne.
Qed.

Lemma world_kill_decrements_victim_witness :
  StateMachine.kills (StateMachine.registerKill StateMachine.newMatchParser
                        world "Mocinha" "MOD_TRIGGER_HURT") !! "Mocinha" = Some (-1)
  ∧ Legacy.kills (Legacy.registerKillEvent Legacy.newMatchInfo
                    world "Mocinha" "MOD_TRIGGER_HURT") !! world = None.
Proof.
  assert (Hne : "Mocinha" ≠ world) by discriminate.
  assert (Hr : can_decr 0) by (vm_compute; split; congruence).
  pose proof (world_kill_decrements_victim "Mocinha" "MOD_TRIGGER_HURT"
                StateMachine.newMatchParser Legacy.newMatchInfo Hne Hr Hr) as [Hs Hl].
  split; [apply Hs | apply Hl].
Defined.

(** ** Self-kills *)

(** C6, as the code has it.  When a player is killer and victim at once,
    the state-machine parser leaves every tally as it was (the player only
    gets the entry of a newcomer, at zero) and adds one to [totalKills]
    and to the count of the cause; the parser delimited by [InitGame]
    adds one to the player's own tally, leaves the others alone and adds
    one to the count of the cause. *)
Theorem self_kill_by_parser
    (player cause : string) (sm : StateMachine.matchParser) (lg : Legacy.matchInfo) :
  player ≠ world ->
  can_incr (StateMachine.totalKills sm) ->
  can_incr (map_index (StateMachine.killsByMeans sm) cause) ->
  can_incr (map_index (Legacy.kills lg) player) ->
  can_incr (map_index (Legacy.killsByMeans lg) cause) ->
  (let sm' := StateMachine.registerKill sm player player cause in
   (forall q, map_index (StateMachine.kills sm') q = map_index (StateMachine.kills sm) q)
   ∧ StateMachine.kills sm' = map_ensure (StateMachine.kills sm) player
   ∧ StateMachine.totalKills sm' = StateMachine.totalKills sm + 1
   ∧ map_index (StateMachine.killsByMeans sm') cause
     = map_index (StateMachine.killsByMeans sm) cause + 1)
  ∧
  (let lg' := Legacy.registerKillEvent lg player player cause in
   map_index (Legacy.kills lg') player = map_index (Legacy.kills lg) player + 1
   ∧ (forall q, q ≠ player ->
        map_index (Legacy.kills lg') q = map_index (Legacy.kills lg) q)
   ∧ map_index (Legacy.killsByMeans lg') cause
     = map_index (Legacy.killsByMeans lg) cause + 1).
Proof.
  intros Hne Ht Hc Hk Hc'. split.
  - rewrite RegisterKill.registerKill_self by done. simpl.
    split; [intros q; apply map_index_ensure |].
    split; [done |].
    split; [by apply GoIntFacts.incr_small |].
    rewrite map_index_incr. by apply GoIntFacts.incr_small.
  - rewrite RegisterKillEvent.registerKillEvent_self by done. simpl.
    split.
    + rewrite map_index_incr, map_index_ensure. by apply GoIntFacts.incr_small.
    + split.
      * intros q Hq. rewrite map_index_incr_ne by done. apply map_index_ensure.
      * rewrite map_index_incr. by apply GoIntFacts.incr_small.
Qed.

Lemma self_kill_by_parser_witness :
  StateMachine.totalKills
    (StateMachine.registerKill StateMachine.newMatchParser "Zeh" "Zeh" "MOD_FALLING") = 1
  ∧ map_index (Legacy.kills
                 (Legacy.registerKillEvent Legacy.newMatchInfo "Zeh" "Zeh" "MOD_FALLING"))
      "Zeh" = 1.
Proof.
  assert (Hne : "Zeh" ≠ world) by discriminate.
  assert (Hr : can_incr 0) by (vm_compute; split; congruence).
  pose proof (self_kill_by_parser "Zeh" "MOD_FALLING"
                StateMachine.newMatchParser Legacy.newMatchInfo Hne Hr Hr Hr Hr)
    as [Hs Hl].
  split; [apply Hs | apply Hl].
Defined.

(** C6 as stated fails in the parser delimited by [InitGame]: a self-kill
    changes the player's tally there. *)
Lemma self_kill_counted_by_legacy :
  ¬ (forall q,
       map_index (Legacy.kills
                    (Legacy.registerKillEvent Legacy.newMatchInfo "Zeh" "Zeh" "MOD_FALLING")) q
       = map_index (Legacy.kills Legacy.newMatchInfo) q).
Proof. intros H. specialize (H "Zeh"). vm_compute in H. discriminate. Qed.

(** ** The line header *)

Module HeaderFacts.
Import Regexp StateMachine.

Section Equations.
Context {R : Type} (k : nat -> string -> captures -> option R).

Lemma rmatch_Cat r1 r2 pos t c :
  rmatch (Cat r1 r2) pos t c k
  = rmatch r1 pos t c (fun pos' t' c' => rmatch r2 pos' t' c' k).
Proof. reflexivity. Qed.

Lemma rmatch_Or r1 r2 pos t c :
  rmatch (Or r1 r2) pos t c k
  = match rmatch r1 pos t c k with
    | Some x => Some x
    | None => rmatch r2 pos t c k
    end.
Proof. reflexivity. Qed.

Lemma rmatch_Bol_start t c : rmatch Bol 0 t c k = k 0%nat t c.
Proof. reflexivity. Qed.

Lemma rmatch_Bol_later pos t c : (0 < pos)%nat -> rmatch Bol pos t c k = None.
Proof. intros Hpos. simpl. destruct (Nat.eqb_spec pos 0); [lia | done]. Qed.

Lemma rmatch_Class_take p pos a t c :
  p a = true -> rmatch (Class p) pos (String a t) c k = k (S pos) t c.
Proof. intros Hp. simpl. by rewrite Hp. Qed.

End Equations.

(** A starred class that cannot take the next byte hands over at once. *)
Lemma rmatch_Star_Class_stuck {R} (p : ascii -> bool) pos a t c
    (k : nat -> string -> captures -> option R) :
  p a = false ->
  rmatch (Star (Class p)) pos (String a t) c k = k pos (String a t) c.
Proof. intros Hp. simpl. rewrite Hp. reflexivity. Qed.

Lemma rmatch_Star_empty {R} (r : regex) pos c
    (k : nat -> string -> captures -> option R) :
  rmatch (Star r) pos "" c k = k pos "" c.
Proof. reflexivity. Qed.

(** A star succeeds wherever what follows it succeeds on the spot. *)
Lemma rmatch_Star_is_Some {R} (r : regex) pos t c
    (k : nat -> string -> captures -> option R) :
  is_Some (k pos t c) -> is_Some (rmatch (Star r) pos t c k).
Proof.
  intros Hk. simpl. destruct (String.length t); [done |].
  match goal with |- is_Some (match ?x with _ => _ end) => destruct x end; eauto.
Qed.

Lemma header_class_split a :
  header_class a = false -> perl_space a = false ∧ perl_digit a = false.
Proof.
  unfold header_class. intros H.
  apply orb_false_elim in H as [H _]. by apply orb_false_elim in H as [? ?].
Qed.

(** Both alternatives are anchored: no match starts later in the line. *)
Lemma no_header_after_start pos t :
  (0 < pos)%nat -> search lineHeaderExpr pos t = None.
Proof.
  revert pos. induction t as [| a t IH]; intros pos Hpos.
  - unfold search, match_at, lineHeaderExpr.
    by rewrite rmatch_Or, !rmatch_Cat, !rmatch_Bol_later.
  - change (search lineHeaderExpr pos (String a t))
      with (match match_at lineHeaderExpr pos (String a t) with
            | Some (e, c) => Some (pos, e, c)
            | None => search lineHeaderExpr (S pos) t
            end).
    assert (match_at lineHeaderExpr pos (String a t) = None) as ->.
    { unfold match_at, lineHeaderExpr.
      by rewrite rmatch_Or, !rmatch_Cat, !rmatch_Bol_later. }
    apply IH. lia.
Qed.

Lemma headless_no_match t : headless t -> match_at lineHeaderExpr 0 t = None.
Proof.
  destruct t as [| a t]; intros Hh.
  - reflexivity.
  - simpl in Hh. destruct (header_class_split _ Hh) as [Hs Hd].
    unfold match_at, lineHeaderExpr, Plus.
    simpl. rewrite Hs, Hd, Hh. reflexivity.
Qed.

(** A line that starts with no digit, colon or white space has no
    header. *)
Lemma headless_has_no_header t :
  headless t -> FindStringIndex lineHeaderExpr t = None.
Proof.
  intros Hh. unfold FindStringIndex.
  destruct t as [| a t].
  - reflexivity.
  - change (search lineHeaderExpr 0 (String a t))
      with (match match_at lineHeaderExpr 0 (String a t) with
            | Some (e, c) => Some (0%nat, e, c)
            | None => search lineHeaderExpr 1 t
            end).
    rewrite headless_no_match by done.
    rewrite no_header_after_start by lia. reflexivity.
Qed.

(** Any other line has one, and it starts the line. *)
Lemma header_found a t :
  header_class a = true ->
  exists e, FindStringIndex lineHeaderExpr (String a t) = Some (0%nat, e).
Proof.
  intros Ha. unfold FindStringIndex.
  change (search lineHeaderExpr 0 (String a t))
    with (match match_at lineHeaderExpr 0 (String a t) with
          | Some (e, c) => Some (0%nat, e, c)
          | None => search lineHeaderExpr 1 t
          end).
  assert (is_Some (match_at lineHeaderExpr 0 (String a t))) as [[e c] ->];
    [| by exists e].
  unfold match_at, lineHeaderExpr. rewrite rmatch_Or.
  match goal with |- is_Some (match ?x with _ => _ end) => destruct x end; [eauto |].
  rewrite rmatch_Cat, rmatch_Bol_start, rmatch_Cat.
  apply rmatch_Star_is_Some.
  unfold Plus. rewrite rmatch_Cat, rmatch_Class_take by done.
  apply rmatch_Star_is_Some. eauto.
Qed.

Lemma payload_None_iff line : payload line = None <-> headless line.
Proof.
  unfold payload. split.
  - intros H. destruct line as [| a t]; [exact I |]. simpl.
    destruct (header_class a) eqn:Ha; [| done].
    destruct (header_found a t Ha) as [e He]. by rewrite He in H.
  - intros H. by rewrite headless_has_no_header.
Qed.

End HeaderFacts.

(** ** Steps of the state-machine parser *)

Module Steps.
Import Regexp StateMachine.

Lemma FindStringSubmatch_shape r t :
  FindStringSubmatch r 3 t = []
  ∨ exists whole a b c, FindStringSubmatch r 3 t = [whole; a; b; c].
Proof.
  unfold FindStringSubmatch. destruct (search r 0 t) as [[[b e] c] |]; [right | by left].
  simpl. eauto.
Qed.

(** Neither parser ever returns an error. *)
Lemma parseEvent_Ok ev p event :
  exists p' nextParser, parseEvent ev p event = (p', Ok nextParser).
Proof.
  destruct ev as [| m]; simpl.
  - unfold lookingForGameParser_parseEvent.
    destruct (negb (HasPrefix event "InitGame:")); eauto.
  - unfold matchParser_parseEvent.
    destruct (HasPrefix event "---"); [eauto |].
    destruct (FindStringSubmatch_shape killExpr event) as [-> | (w & a & b & c & ->)];
      eauto.
Qed.

Lemma scanLoop_step line ls n p event :
  payload line = Some event ->
  scanLoop (line :: ls) n p = scanLoop ls (GoInt.incr n) (feed p event).
Proof.
  unfold payload, feed, logParser_parseEvent. intros Hp. simpl.
  destruct (FindStringIndex lineHeaderExpr line) as [[b e] |]; [| done].
  injection Hp as <-.
  destruct (parseEvent_Ok (evParser p) p (slice_from e line)) as (p' & nx & ->).
  reflexivity.
Qed.

Lemma scanLoop_malformed line ls n p :
  payload line = None ->
  scanLoop (line :: ls) n p = Err (malformed (GoInt.incr n)).
Proof.
  unfold payload. intros Hp. simpl.
  by destruct (FindStringIndex lineHeaderExpr line) as [[b e] |].
Qed.

(** The loop ends well exactly when every line has a header, and then it
    has fed the events one by one. *)
Lemma scanLoop_Ok ls n p p' :
  scanLoop ls n p = Ok p' ->
  exists events, events_of ls events ∧ p' = fold_left feed events p.
Proof.
  revert n p. induction ls as [| line ls IH]; intros n p H.
  - exists []. simpl in H. injection H as <-. split; [constructor | done].
  - destruct (payload line) as [event |] eqn:Hp.
    + rewrite (scanLoop_step _ _ _ _ _ Hp) in H.
      destruct (IH _ _ H) as (events & Hall & ->).
      exists (event :: events). split; [by constructor | done].
    + by rewrite (scanLoop_malformed _ _ _ _ Hp) in H.
Qed.

Lemma scanLoop_events ls events n p :
  events_of ls events ->
  scanLoop ls n p = Ok (fold_left feed events p).
Proof.
  intros Hall. revert n p.
  induction Hall as [| line event ls events Hp _ IH]; intros n p; [done |].
  rewrite (scanLoop_step _ _ _ _ _ Hp). apply IH.
Qed.

(** *** What one event does *)

Lemma feed_looking_init ms event :
  HasPrefix event "InitGame:" = true ->
  feed (mkLogParser lookingForGameParser ms) event
  = mkLogParser (matchParserPtr newMatchParser) ms.
Proof.
  intros H. unfold feed, logParser_parseEvent. simpl.
  unfold lookingForGameParser_parseEvent. by rewrite H.
Qed.

Lemma feed_looking_other ms event :
  HasPrefix event "InitGame:" = false ->
  feed (mkLogParser lookingForGameParser ms) event
  = mkLogParser lookingForGameParser ms.
Proof.
  intros H. unfold feed, logParser_parseEvent. simpl.
  unfold lookingForGameParser_parseEvent. by rewrite H.
Qed.

(** A divider closes the open match. *)
Lemma feed_open_divider m ms event :
  HasPrefix event "---" = true ->
  feed (mkLogParser (matchParserPtr m) ms) event
  = mkLogParser lookingForGameParser (ms ++ [finish m])%list.
Proof.
  intros H. unfold feed, logParser_parseEvent. simpl.
  unfold matchParser_parseEvent. by rewrite H.
Qed.

Lemma feed_open_kill m ms event whole killer killed killedBy :
  HasPrefix event "---" = false ->
  FindStringSubmatch killExpr 3 event = [whole; killer; killed; killedBy] ->
  feed (mkLogParser (matchParserPtr m) ms) event
  = mkLogParser (matchParserPtr (registerKill m killer killed killedBy)) ms.
Proof.
  intros H Hk. unfold feed, logParser_parseEvent. simpl.
  unfold matchParser_parseEvent. by rewrite H, Hk.
Qed.

Lemma feed_open_other m ms event :
  HasPrefix event "---" = false ->
  FindStringSubmatch killExpr 3 event = [] ->
  feed (mkLogParser (matchParserPtr m) ms) event
  = mkLogParser (matchParserPtr m) ms.
Proof.
  intros H Hk. unfold feed, logParser_parseEvent. simpl.
  unfold matchParser_parseEvent. by rewrite H, Hk.
Qed.

Lemma is_kill_true event whole a b c :
  HasPrefix event "---" = false ->
  FindStringSubmatch killExpr 3 event = [whole; a; b; c] -> is_kill event = true.
Proof. intros H Hk. unfold is_kill. by rewrite H, Hk. Qed.

Lemma is_kill_false event :
  FindStringSubmatch killExpr 3 event = [] -> is_kill event = false.
Proof. intros Hk. unfold is_kill. rewrite Hk. apply andb_false_r. Qed.

(** An event that is no divider leaves the match open, and counts as a
    kill exactly when it moves [totalKills]. *)
Lemma feed_open_stays m ms event :
  HasPrefix event "---" = false ->
  exists m', feed (mkLogParser (matchParserPtr m) ms) event
             = mkLogParser (matchParserPtr m') ms
             ∧ totalKills m'
               = if is_kill event then GoInt.incr (totalKills m) else totalKills m.
Proof.
  intros H.
  destruct (FindStringSubmatch_shape killExpr event) as [Hk | (w & a & b & c & Hk)].
  - exists m. rewrite feed_open_other, is_kill_false by done. done.
  - exists (registerKill m a b c).
    rewrite (feed_open_kill _ _ _ _ _ _ _ H Hk), (is_kill_true _ _ _ _ _ H Hk).
    split; [done | apply RegisterKill.registerKill_totalKills].
Qed.

End Steps.

(** ** Lines without a header *)

Module Malformed.
Import Regexp StateMachine Steps.

(** The loop stops at the first line without a header and names it,
    counting from one. *)
Lemma scanLoop_first_malformed ls : forall i line k p,
  ls !! i = Some line ->
  payload line = None ->
  Z.of_nat (k + length ls) <= GoInt.max_int ->
  exists j, (j <= i)%nat
    ∧ scanLoop ls (Z.of_nat k) p = Err (malformed (Z.of_nat (k + j) + 1))
    ∧ (exists bad, ls !! j = Some bad ∧ payload bad = None)
    ∧ ((forall k' l, (k' < i)%nat -> ls !! k' = Some l -> payload l ≠ None) -> j = i).
Proof.
  induction ls as [| line0 ls IH]; intros i line k p Hi Hline Hlen; [done |].
  simpl in Hlen.
  destruct (payload line0) as [event |] eqn:Hp.
  - destruct i as [| i]; [simpl in Hi; congruence |]. simpl in Hi.
    rewrite (scanLoop_step _ _ _ _ _ Hp), GoIntFacts.incr_of_nat by lia.
    destruct (IH i line (S k) (feed p event) Hi Hline) as (j & Hj & Hrun & Hbad & Hfirst);
      [lia |].
    exists (S j). split; [lia |]. split.
    { rewrite Hrun. do 3 f_equal. lia. }
    split; [done |].
    intros Hall. f_equal. apply Hfirst. intros k' l Hk' Hl.
    apply (Hall (S k') l); [lia | done].
  - exists 0%nat. split; [lia |]. split.
    { rewrite (scanLoop_malformed _ _ _ _ Hp), GoIntFacts.incr_of_nat by lia.
      do 2 f_equal. lia. }
    split; [by exists line0 |].
    intros Hall. destruct i as [| i]; [done |].
    exfalso. apply (Hall 0%nat line0); [lia | done | done].
Qed.

Lemma ParseLog_first_malformed log i line :
  lines log !! i = Some line ->
  payload line = None ->
  Z.of_nat (length (lines log)) <= GoInt.max_int ->
  exists j, (j <= i)%nat
    ∧ ParseLog log = Err (malformed (Z.of_nat j + 1))
    ∧ (exists bad, lines log !! j = Some bad ∧ payload bad = None)
    ∧ ((forall k l, (k < i)%nat -> lines log !! k = Some l -> payload l ≠ None) -> j = i).
Proof.
  intros Hi Hline Hlen.
  destruct (scanLoop_first_malformed (lines log) i line 0 newLogParser Hi Hline)
    as (j & Hj & Hrun & Hbad & Hfirst); [simpl; lia |].
  exists j. split; [done |]. split; [| done].
  unfold ParseLog. change 0 with (Z.of_nat 0). by rewrite Hrun.
Qed.






End Malformed.

(** C10. In the state-machine parser a line that starts with no digit,
    colon or white space (the empty line is one) is not skipped: the parse
    fails with the malformed-line error of the first such line, counted
    from one, which is this line when none comes before it. *)
Theorem blank_line_is_malformed (log : Reader) (i : nat) (line : string) :
  lines log !! i = Some line ->
  headless line ->
  Z.of_nat (length (lines log)) <= GoInt.max_int ->
  exists j, (j <= i)%nat
    ∧ StateMachine.ParseLog log = Err (StateMachine.malformed (Z.of_nat j + 1))
    ∧ (exists bad, lines log !! j = Some bad ∧ headless bad)
    ∧ ((forall k l, (k < i)%nat -> lines log !! k = Some l -> ¬ headless l) -> j = i).
Proof.
  intros Hi Hline Hlen.
  apply HeaderFacts.payload_None_iff in Hline.
  destruct (Malformed.ParseLog_first_malformed log i line Hi Hline Hlen)
    as (j & Hj & Hrun & (bad & Hbad & Hnone) & Hfirst).
  exists j. split; [done |]. split; [done |]. split.
  - exists bad. split; [done |]. by apply HeaderFacts.payload_None_iff.
  - intros Hall. apply Hfirst. intros k l Hk Hl Hp.
    apply (Hall k l Hk Hl). by apply HeaderFacts.payload_None_iff.
Qed.

Lemma blank_line_is_malformed_witness :
  exists j, (j <= 1)%nat
    ∧ StateMachine.ParseLog (text ["  0:00 InitGame:"; ""; "  0:07 ---"])
      = Err (StateMachine.malformed (Z.of_nat j + 1)).
Proof.
  destruct (blank_line_is_malformed
              (text ["  0:00 InitGame:"; ""; "  0:07 ---"]) 1 "")
    as (j & Hj & Hrun & _).
  - reflexivity.
  - exact I.
  - vm_compute. congruence.
  - exists j. split; [exact Hj | exact Hrun].
Defined.

(** The message of that run, spelled out. *)
Example blank_line_message :
  StateMachine.ParseLog (text ["  0:00 InitGame:"; ""; "  0:07 ---"])
  = Err "line 2 is malformed".
Proof. vm_compute. reflexivity. Qed.




(** ** The end of the input *)

Module EndOfInput.
Import StateMachine Steps.

Lemma feed_match_open p event :
  match_open (feed p event)
  = if match_open p then negb (HasPrefix event "---") else HasPrefix event "InitGame:".
Proof.
  destruct p as [[| m] ms]; unfold match_open at 2; simpl.
  - destruct (HasPrefix event "InitGame:") eqn:H.
    + by rewrite feed_looking_init.
    + by rewrite feed_looking_other.
  - destruct (HasPrefix event "---") eqn:H.
    + by rewrite feed_open_divider.
    + destruct (feed_open_stays m ms event H) as (m' & -> & _). done.
Qed.

Lemma fold_feed_match_open events : forall p,
  match_open (fold_left feed events p) = open_after (match_open p) events.
Proof.
  induction events as [| e events IH]; intros p; [done |].
  simpl. rewrite IH, feed_match_open. by destruct (match_open p).
Qed.

(** With every line well-formed and the reader sound, the result depends
    on whether a match is open after the last event. *)
Lemma ParseLog_open log events :
  events_of (lines log) events ->
  read_err log = None ->
  open_after false events = true ->
  ParseLog log = Err unterminated.
Proof.
  intros Hev Herr Hopen. unfold ParseLog.
  rewrite (scanLoop_events _ _ _ _ Hev), Herr.
  pose proof (fold_feed_match_open events newLogParser) as H.
  change (match_open newLogParser) with false in H. rewrite Hopen in H.
  unfold match_open in H. by destruct (evParser (fold_left feed events newLogParser)).
Qed.

Lemma ParseLog_closed log events :
  events_of (lines log) events ->
  read_err log = None ->
  open_after false events = false ->
  ParseLog log = Ok (matches (fold_left feed events newLogParser)).
Proof.
  intros Hev Herr Hopen. unfold ParseLog.
  rewrite (scanLoop_events _ _ _ _ Hev), Herr.
  pose proof (fold_feed_match_open events newLogParser) as H.
  change (match_open newLogParser) with false in H. rewrite Hopen in H.
  unfold match_open in H. by destruct (evParser (fold_left feed events newLogParser)).
Qed.

(** The other parser closes the match that is open at the end itself. *)
Lemma legacy_ParseLog_last o ls closed current :
  Legacy.scanLoop o (Legacy.skipInitGameEvent ls) [] Legacy.newMatchInfo
    = Ok (closed, current) ->
  Legacy.ParseLog o (text ls) = Ok (closed ++ [Legacy.finish o current]).
Proof.
  intros H. unfold Legacy.ParseLog. simpl.
  destruct (Legacy.foundEvent ls); by rewrite H.
Qed.

End EndOfInput.

(** C4, as the code has it.  When the lines are well-formed, the reader
    reports no error and a match is open after the last event, the
    state-machine parser fails with its own error and returns no match;
    the parser delimited by [InitGame] returns the match that is open at
    the end as the last one. *)
Theorem open_match_at_end_by_parser
    (log : Reader) (events : list string)
    (o : MapOrder) (ls : list string) (closed : Matches) (current : Legacy.matchInfo) :
  events_of (lines log) events ->
  read_err log = None ->
  open_after false events = true ->
  Legacy.scanLoop o (Legacy.skipInitGameEvent ls) [] Legacy.newMatchInfo
    = Ok (closed, current) ->
  StateMachine.ParseLog log = Err "log entries ended while a match was still open"
  ∧ Legacy.ParseLog o (text ls) = Ok (closed ++ [Legacy.finish o current]).
Proof.
  intros Hev Herr Hopen Hlegacy. split.
  - by apply (EndOfInput.ParseLog_open log events).
  - by apply EndOfInput.legacy_ParseLog_last.
Qed.

Lemma open_match_at_end_by_parser_witness :
  StateMachine.ParseLog
    (text ["  0:00 ------------------------------------------------------------";
           "  0:00 InitGame:"])
  = Err "log entries ended while a match was still open"
  ∧ Legacy.ParseLog Legacy.ascending
      (text [" 20:37 InitGame:";
             " 20:54 Kill: 1022 2 22: <world> killed Isgalamido by MOD_TRIGGER_HURT"])
    = Ok ([] ++ [Legacy.finish Legacy.ascending
                   (Legacy.registerKillEvent Legacy.newMatchInfo
                      "<world>" "Isgalamido" "MOD_TRIGGER_HURT")]).
Proof.
  apply (open_match_at_end_by_parser
           (text ["  0:00 ------------------------------------------------------------";
                  "  0:00 InitGame:"])
           ["------------------------------------------------------------"; "InitGame:"]).
  - repeat constructor.
  - reflexivity.
  - reflexivity.
  - vm_compute. reflexivity.
Defined.

(** C4 as stated fails in the parser delimited by [InitGame]: the match
    that is open at the end of the input is part of the result. *)
Lemma legacy_returns_open_match :
  exists m,
    Legacy.ParseLog Legacy.ascending
      (text [" 20:37 InitGame:";
             " 20:54 Kill: 1022 2 22: <world> killed Isgalamido by MOD_TRIGGER_HURT"])
    = Ok [m]
    ∧ Kills m !! "Isgalamido" = Some (-1).
Proof. eexists. split; vm_compute; reflexivity. Qed.

(** ** What holds of every match that gets closed *)

Module Invariants.
Import StateMachine Steps.

Section StateMachineRun.
Variable Q : matchParser -> Prop.      (* of the accumulator of an open match *)
Variable P : Match -> Prop.            (* of a closed match *)
Variable E : string -> Prop.           (* of the events met *)
Hypothesis Q_new : Q newMatchParser.
Hypothesis Q_kill : forall m e whole killer killed killedBy,
  E e -> Regexp.FindStringSubmatch killExpr 3 e = [whole; killer; killed; killedBy] ->
  Q m -> Q (registerKill m killer killed killedBy).
Hypothesis P_finish : forall m, Q m -> P (finish m).

Local Abbreviation good p :=
  (Forall P (matches p) ∧ forall m, evParser p = matchParserPtr m -> Q m).

Lemma feed_good p e : E e -> good p -> good (feed p e).
Proof.
  intros He [Hms Hacc]. destruct p as [[| m] ms]; simpl in *.
  - destruct (HasPrefix e "InitGame:") eqn:H.
    + rewrite feed_looking_init by done. split; [done |].
      simpl. intros m' [= <-]. exact Q_new.
    + rewrite feed_looking_other by done. by split.
  - specialize (Hacc m eq_refl).
    destruct (HasPrefix e "---") eqn:H.
    + rewrite feed_open_divider by done. split; [| done]. simpl.
      apply Forall_app. split; [done |]. constructor; [by apply P_finish | constructor].
    + destruct (FindStringSubmatch_shape killExpr e) as [Hk | (w & a & b & c & Hk)].
      * rewrite feed_open_other by done. split; [done |]. simpl. by intros m' [= <-].
      * rewrite (feed_open_kill _ _ _ _ _ _ _ H Hk). split; [done |]. simpl.
        intros m' [= <-]. by apply (Q_kill m e w a b c).
Qed.

Lemma fold_feed_good events : forall p,
  Forall E events -> good p -> good (fold_left feed events p).
Proof.
  induction events as [| e events IH]; intros p Hev Hp; [done |].
  inversion Hev; subst. simpl. apply IH; [done |]. by apply feed_good.
Qed.

Lemma ParseLog_all_matches log ms :
  (forall events, events_of (lines log) events -> Forall E events) ->
  ParseLog log = Ok ms -> Forall P ms.
Proof.
  intros HE. unfold ParseLog.
  destruct (scanLoop (lines log) 0 newLogParser) as [p |] eqn:Hrun; [| done].
  destruct (scanLoop_Ok _ _ _ _ Hrun) as (events & Hev & ->).
  destruct (read_err log); [done |].
  destruct (evParser _) eqn:Hstate; [| done]. intros [= <-].
  apply fold_feed_good; [by apply HE |]. split; [constructor | done].
Qed.

End StateMachineRun.

Section LegacyRun.
Variable o : MapOrder.
Variable Q : Legacy.matchInfo -> Prop.
Variable P : Match -> Prop.
Variable E : string -> Prop.           (* of the lines met *)
Hypothesis Q_new : Q Legacy.newMatchInfo.
Hypothesis Q_kill : forall m l whole killer killed means,
  E l -> Regexp.FindStringSubmatch Legacy.killExpr 3 l = [whole; killer; killed; means] ->
  Q m -> Q (Legacy.registerKillEvent m killer killed means).
Hypothesis P_finish : forall m, Q m -> P (Legacy.finish o m).

Lemma legacy_scanLoop_good ls : forall ms cur ms' cur',
  Forall E ls -> Forall P ms -> Q cur ->
  Legacy.scanLoop o ls ms cur = Ok (ms', cur') -> Forall P ms' ∧ Q cur'.
Proof.
  induction ls as [| l ls IH]; intros ms cur ms' cur' Hls Hms Hcur Hrun.
  - simpl in Hrun. injection Hrun as <- <-. done.
  - inversion Hls; subst. simpl in Hrun.
    destruct (Regexp.FindStringSubmatch Legacy.eventExpr 1 l) as [| w [| ev [| ? ?]]];
      try (by apply (IH ms cur)).
    destruct (String.eqb ev "InitGame").
    { apply (IH (ms ++ [Legacy.finish o cur]) Legacy.newMatchInfo); try done.
      apply Forall_app. split; [done |]. constructor; [by apply P_finish | constructor]. }
    destruct (Regexp.FindStringSubmatch Legacy.killExpr 3 l)
      as [| w' [| a [| b [| c [| ? ?]]]]] eqn:Hk; try done.
    apply (IH ms (Legacy.registerKillEvent cur a b c)); try done.
    by apply (Q_kill cur l w' a b c).
Qed.

Lemma skipInitGameEvent_Forall ls : Forall E ls -> Forall E (Legacy.skipInitGameEvent ls).
Proof.
  induction 1 as [| l ls Hl Hls IH]; [constructor |]. simpl.
  by destruct (Regexp.MatchString Legacy.eventExpr l).
Qed.

Lemma legacy_ParseLog_all_matches source ms :
  Forall E (lines source) -> Legacy.ParseLog o source = Ok ms -> Forall P ms.
Proof.
  intros HE. unfold Legacy.ParseLog.
  destruct (if Legacy.foundEvent (lines source) then None else read_err source); [done |].
  destruct (Legacy.scanLoop o _ [] Legacy.newMatchInfo) as [[closed cur] |] eqn:Hrun;
    [| done].
  destruct (read_err source); [done |]. intros [= <-].
  destruct (legacy_scanLoop_good _ _ _ _ _ (skipInitGameEvent_Forall _ HE)
              (Forall_nil_2 P) Q_new Hrun) as [Hms Hcur].
  apply Forall_app. split; [done |]. constructor; [by apply P_finish | constructor].
Qed.

End LegacyRun.

End Invariants.

(** ** The list of players *)

Module PlayerList.

Lemma slices_Sort_Sorted l : Sorted String.le (slices_Sort l).
Proof. apply Sorted_merge_sort. apply _. Qed.

Lemma slices_Sort_Permutation l : slices_Sort l ≡ₚ l.
Proof. apply merge_sort_Permutation. Qed.

(** Sorting forgets the order it was given. *)
Lemma slices_Sort_order l1 l2 : l1 ≡ₚ l2 -> slices_Sort l1 = slices_Sort l2.
Proof.
  intros Hperm. apply (Sorted_unique String.le); try apply slices_Sort_Sorted.
  by rewrite !slices_Sort_Permutation.
Qed.

(** Whatever order [range] follows over the set of players, the list is
    the same. *)
Lemma getPlayerList_any_order (o : MapOrder) (m : StateMachine.matchParser) :
  slices_Sort (range_keys o (StateMachine.players m)) = StateMachine.getPlayerList m.
Proof. apply slices_Sort_order, range_keys_perm. Qed.

Lemma getPlayerList_sorted (m : StateMachine.matchParser) :
  sorted_without_duplicates (StateMachine.getPlayerList m).
Proof.
  split; [apply slices_Sort_Sorted |].
  unfold StateMachine.getPlayerList. rewrite slices_Sort_Permutation.
  apply NoDup_elements.
Qed.

Lemma getPlayerList_elem_of (m : StateMachine.matchParser) (x : string) :
  x ∈ StateMachine.getPlayerList m <-> x ∈ StateMachine.players m.
Proof.
  unfold StateMachine.getPlayerList. rewrite slices_Sort_Permutation.
  apply elem_of_elements.
Qed.

Lemma getPlayerList_length (m : StateMachine.matchParser) :
  length (StateMachine.getPlayerList m) = size (StateMachine.players m).
Proof.
  unfold StateMachine.getPlayerList. by rewrite slices_Sort_Permutation.
Qed.

Lemma legacy_getPlayerList_NoDup (o : MapOrder) (m : Legacy.matchInfo) :
  NoDup (Legacy.getPlayerList o m).
Proof.
  unfold Legacy.getPlayerList. rewrite range_keys_perm. apply NoDup_elements.
Qed.

Lemma legacy_getPlayerList_elem_of (o : MapOrder) (m : Legacy.matchInfo) (x : string) :
  x ∈ Legacy.getPlayerList o m <-> x ∈ Legacy.players m.
Proof.
  unfold Legacy.getPlayerList. rewrite range_keys_perm. apply elem_of_elements.
Qed.

Lemma legacy_getPlayerList_length (o : MapOrder) (m : Legacy.matchInfo) :
  length (Legacy.getPlayerList o m) = size (Legacy.players m).
Proof. unfold Legacy.getPlayerList. by rewrite range_keys_perm. Qed.

End PlayerList.

(** C7, as the code has it.  Every match the state-machine parser
    returns lists its players in ascending order without duplicates;
    every match the parser delimited by [InitGame] returns lists them
    without duplicates, in the order [range] went over the set. *)
Theorem players_order_by_parser
    (log : Reader) (ms : Matches) (o : MapOrder) (source : Reader) (ms' : Matches) :
  StateMachine.ParseLog log = Ok ms ->
  Legacy.ParseLog o source = Ok ms' ->
  Forall (fun m => sorted_without_duplicates (Players m)) ms
  ∧ Forall (fun m => NoDup (Players m)) ms'.
Proof.
  intros Hsm Hlg. split.
  - apply (Invariants.ParseLog_all_matches (fun _ => True) _ (fun _ => True)
             I (fun _ _ _ _ _ _ _ _ _ => I)
             (fun m _ => PlayerList.getPlayerList_sorted m) log ms); [| done].
    intros events _. by apply Forall_forall.
  - apply (Invariants.legacy_ParseLog_all_matches o (fun _ => True) _ (fun _ => True)
             I (fun _ _ _ _ _ _ _ _ _ => I)
             (fun m _ => PlayerList.legacy_getPlayerList_NoDup o m) source ms'); [| done].
    by apply Forall_forall.
Qed.

Lemma players_order_by_parser_witness :
  Forall (fun m => sorted_without_duplicates (Players m))
    [StateMachine.finish
       (StateMachine.registerKill StateMachine.newMatchParser "Zeh" "Dono da Bola" "MOD_RAILGUN")]
  ∧ Forall (fun m => NoDup (Players m))
      [Legacy.finish Legacy.descending
         (Legacy.registerKillEvent Legacy.newMatchInfo "Zeh" "Dono da Bola" "MOD_RAILGUN")].
Proof.
  apply (players_order_by_parser
           (text ["  1:08 InitGame:";
                  "  1:26 Kill: 4 2 10: Zeh killed Dono da Bola by MOD_RAILGUN";
                  "  1:47 ------------------------------------------------------------"])
           _ Legacy.descending
           (text ["  1:08 InitGame:";
                  "  1:26 Kill: 4 2 10: Zeh killed Dono da Bola by MOD_RAILGUN"])).
  - vm_compute. reflexivity.
  - vm_compute. reflexivity.
Defined.

(** C7 as stated fails in the parser delimited by [InitGame]: it does not
    sort, so an order of [range] shows in the result. *)
Lemma legacy_players_unsorted :
  exists m,
    Legacy.ParseLog Legacy.descending
      (text ["  1:08 InitGame:";
             "  1:26 Kill: 4 2 10: Zeh killed Dono da Bola by MOD_RAILGUN"])
    = Ok [m]
    ∧ Players m = ["Zeh"; "Dono da Bola"]
    ∧ ¬ Sorted String.le (Players m).
Proof.
  eexists. split; [vm_compute; reflexivity |]. split; [vm_compute; reflexivity |].
  simpl. intros H. inversion H as [| ? ? _ Hhd]; subst.
  inversion Hhd as [| ? ? Hle]; subst. vm_compute in Hle. done.
Qed.

(** ** Players and tallies *)

Module Roster.
Import StateMachine.

(** A kill event whose killer and victim are not both the environment. *)
Local Abbreviation not_world_on_world r t :=
  (forall whole killer killed cause,
     Regexp.FindStringSubmatch r 3 t = [whole; killer; killed; cause] ->
     ¬ (killer = world ∧ killed = world)).

(** As long as the environment is not the victim of its own kill, the
    keys of the kills are the players. *)
Lemma registerKill_keeps_roster m killer killed killedBy :
  ¬ (killer = world ∧ killed = world) ->
  dom (kills m) = players m ->
  dom (kills (registerKill m killer killed killedBy))
  = players (registerKill m killer killed killedBy).
Proof.
  intros Hnot Hdom.
  rewrite RegisterKill.registerKill_dom_kills, RegisterKill.registerKill_players by done.
  by rewrite Hdom.
Qed.

Lemma finish_roster m : dom (kills m) = players m -> roster_matches_kills (finish m).
Proof.
  intros Hdom. unfold roster_matches_kills. simpl.
  by rewrite PlayerList.getPlayerList_length, <- Hdom, size_dom.
Qed.

Lemma ParseLog_roster log ms :
  (forall events, events_of (lines log) events ->
     Forall (fun e => not_world_on_world killExpr e) events) ->
  ParseLog log = Ok ms ->
  Forall roster_matches_kills ms.
Proof.
  apply (Invariants.ParseLog_all_matches
           (fun m => dom (kills m) = players m) roster_matches_kills
           (fun e => not_world_on_world killExpr e)).
  - reflexivity.
  - intros m e w a b c He Hk Hdom. apply registerKill_keeps_roster; [| done].
    by apply (He w a b c).
  - apply finish_roster.
Qed.

Lemma registerKillEvent_keeps_roster m killer killed means :
  ¬ (killer = world ∧ killed = world) ->
  dom (Legacy.kills m) = Legacy.players m ->
  dom (Legacy.kills (Legacy.registerKillEvent m killer killed means))
  = Legacy.players (Legacy.registerKillEvent m killer killed means).
Proof.
  intros Hnot Hdom.
  rewrite RegisterKillEvent.registerKillEvent_dom_kills,
    RegisterKillEvent.registerKillEvent_players by done.
  by rewrite Hdom.
Qed.

Lemma legacy_ParseLog_roster o source ms :
  Forall (fun l => not_world_on_world Legacy.killExpr l) (lines source) ->
  Legacy.ParseLog o source = Ok ms ->
  Forall roster_matches_kills ms.
Proof.
  apply (Invariants.legacy_ParseLog_all_matches o
           (fun m => dom (Legacy.kills m) = Legacy.players m) roster_matches_kills
           (fun l => not_world_on_world Legacy.killExpr l)).
  - reflexivity.
  - intros m l w a b c Hl Hk Hdom. apply registerKillEvent_keeps_roster; [| done].
    by apply (Hl w a b c).
  - intros m Hdom. unfold roster_matches_kills. simpl.
    by rewrite PlayerList.legacy_getPlayerList_length, <- Hdom, size_dom.
Qed.

End Roster.

(** C8 at the input where the code breaks it: a kill line whose killer
    and victim are both the environment.  The loop over killer and victim
    skips the name, but the decrement that follows writes the victim's
    tally all the same, so the match is closed with one key in its kills
    and no player; both parsers do so. *)
Theorem world_victim_breaks_roster :
  (exists m,
     StateMachine.ParseLog
       (text ["  0:00 InitGame:";
              "  0:05 Kill: 1022 1022 22: <world> killed <world> by MOD_TRIGGER_HURT";
              "  0:09 ------------------------------------------------------------"])
     = Ok [m]
     ∧ Players m = [] ∧ Kills m = {[ world := -1 ]}
     ∧ ¬ roster_matches_kills m)
  ∧
  (exists m,
     Legacy.ParseLog Legacy.ascending
       (text ["  0:00 InitGame:";
              "  0:05 Kill: 1022 1022 22: <world> killed <world> by MOD_TRIGGER_HURT"])
     = Ok [m]
     ∧ Players m = [] ∧ Kills m = {[ world := -1 ]}
     ∧ ¬ roster_matches_kills m).
Proof.
  split; eexists; (split; [vm_compute; reflexivity |]);
    (split; [vm_compute; reflexivity |]); (split; [vm_compute; reflexivity |]);
    unfold roster_matches_kills; vm_compute; discriminate.
Qed.

(** The registration alone, from a fresh accumulator. *)
Example registerKill_world_on_world :
  StateMachine.kills
    (StateMachine.registerKill StateMachine.newMatchParser world world "MOD_TRIGGER_HURT")
    !! world = Some (-1)
  ∧ StateMachine.players
      (StateMachine.registerKill StateMachine.newMatchParser world world "MOD_TRIGGER_HURT")
    = ∅.
Proof. split; vm_compute; reflexivity. Qed.

(** ** The total of kills *)

Module TotalKillsFacts.
Import StateMachine Steps.

Lemma kill_count_snoc body e :
  kill_count (body ++ [e]) = kill_count body + (if is_kill e then 1 else 0).
Proof.
  unfold kill_count. rewrite filter_app, length_app, filter_cons, filter_nil.
  destruct (is_kill e); case_decide; simpl; try done; lia.
Qed.

Lemma incr_int_wrap z : GoInt.incr (GoInt.int_wrap z) = GoInt.int_wrap (z + 1).
Proof. apply GoIntFacts.int_wrap_incr. Qed.

(** The counter of an open match follows the kill events it has seen. *)
Local Abbreviation counted p cur :=
  (match evParser p, cur with
   | lookingForGameParser, None => True
   | matchParserPtr m, Some body => totalKills m = GoInt.int_wrap (kill_count body)
   | _, _ => False
   end).

Lemma fold_feed_totalKills events : forall p cur,
  counted p cur ->
  List.map TotalKills (matches (fold_left feed events p))
  = List.map TotalKills (matches p)
    ++ List.map (fun body => GoInt.int_wrap (kill_count body)) (sessions cur events).
Proof.
  induction events as [| e events IH]; intros p cur Hp.
  - simpl. by rewrite app_nil_r.
  - simpl. destruct p as [[| m] ms], cur as [body |]; simpl in Hp; try done.
    + destruct (HasPrefix e "InitGame:") eqn:H.
      * rewrite feed_looking_init by done. by rewrite (IH _ (Some [])).
      * rewrite feed_looking_other by done. by rewrite (IH _ None).
    + destruct (HasPrefix e "---") eqn:H.
      * rewrite feed_open_divider by done. rewrite (IH _ None) by done. simpl.
        rewrite map_app, <- app_assoc. simpl. by rewrite Hp.
      * destruct (feed_open_stays m ms e H) as (m' & -> & Htot).
        rewrite (IH _ (Some (body ++ [e]))); [done |]. simpl.
        rewrite Htot, kill_count_snoc, Hp.
        destruct (is_kill e); [apply incr_int_wrap | f_equal; lia].
Qed.

(** Every match the state-machine parser returns counts the kill events
    met while it was open. *)
Lemma ParseLog_totalKills log ms :
  ParseLog log = Ok ms ->
  exists events, events_of (lines log) events
    ∧ List.map TotalKills ms
      = List.map (fun body => GoInt.int_wrap (kill_count body)) (sessions None events).
Proof.
  unfold ParseLog.
  destruct (scanLoop (lines log) 0 newLogParser) as [p |] eqn:Hrun; [| done].
  destruct (scanLoop_Ok _ _ _ _ Hrun) as (events & Hev & ->).
  destruct (read_err log); [done |].
  destruct (evParser _) eqn:Hstate; [| done]. intros [= <-].
  exists events. split; [done |].
  by rewrite (fold_feed_totalKills events newLogParser None).
Qed.

(** The other parser never counts: every match it returns has a total of
    zero. *)
Lemma legacy_ParseLog_totalKills o source ms :
  Legacy.ParseLog o source = Ok ms -> Forall (fun m => TotalKills m = 0) ms.
Proof.
  apply (Invariants.legacy_ParseLog_all_matches o
           (fun m => Legacy.totalKills m = 0) (fun m => TotalKills m = 0)
           (fun _ => True)).
  - reflexivity.
  - intros m l w a b c _ _ Hm.
    by rewrite RegisterKillEvent.registerKillEvent_totalKills.
  - done.
  - by apply Forall_forall.
Qed.

End TotalKillsFacts.

(** C1 at an input where the code breaks it: a match with two kill
    events.  The state-machine parser closes it with a total of 2; the
    parser delimited by [InitGame] fills [TotalKills] from a counter that
    [registerKillEvent] never moves, and returns 0. *)
Theorem legacy_total_kills_stays_zero :
  (exists m,
     StateMachine.ParseLog
       (text [" 20:37 InitGame:";
              " 20:54 Kill: 1022 2 22: <world> killed Isgalamido by MOD_TRIGGER_HURT";
              " 22:06 Kill: 2 3 7: Isgalamido killed Mocinha by MOD_ROCKET_SPLASH";
              " 26:00 ------------------------------------------------------------"])
     = Ok [m]
     ∧ TotalKills m = 2)
  ∧
  (exists m,
     Legacy.ParseLog Legacy.ascending
       (text [" 20:37 InitGame:";
              " 20:54 Kill: 1022 2 22: <world> killed Isgalamido by MOD_TRIGGER_HURT";
              " 22:06 Kill: 2 3 7: Isgalamido killed Mocinha by MOD_ROCKET_SPLASH"])
     = Ok [m]
     ∧ Kills m = {[ "Isgalamido" := 0; "Mocinha" := 0 ]}
     ∧ KillsByMeans m = {[ "MOD_TRIGGER_HURT" := 1; "MOD_ROCKET_SPLASH" := 1 ]}
     ∧ TotalKills m = 0).
Proof.
  split; eexists; (split; [vm_compute; reflexivity |]);
    repeat split; vm_compute; reflexivity.
Qed.

(** ** Closing a match *)

Module Closing.
Import StateMachine Steps.

(** An event that starts with the shutdown token is no divider. *)
Lemma shutdown_is_no_divider event :
  HasPrefix event "ShutdownGame:" = true -> HasPrefix event "---" = false.
Proof.
  destruct event as [| a t]; [done |].
  change (HasPrefix (String a t) "ShutdownGame:")
    with (Ascii.eqb "S" a && HasPrefix t "hutdownGame:")%bool.
  change (HasPrefix (String a t) "---") with (Ascii.eqb "-" a && HasPrefix t "--")%bool.
  destruct (Ascii.eqb_spec "S" a) as [<- | ?]; [reflexivity | discriminate].
Qed.

(** So it leaves the match open and closes nothing. *)
Lemma feed_open_shutdown m ms event :
  HasPrefix event "ShutdownGame:" = true ->
  exists m', feed (mkLogParser (matchParserPtr m) ms) event
             = mkLogParser (matchParserPtr m') ms.
Proof.
  intros H. apply shutdown_is_no_divider in H.
  destruct (feed_open_stays m ms event H) as (m' & Hm' & _). eauto.
Qed.

(** The divider closes the open match and records it. *)
Lemma divider_closes m ms event :
  HasPrefix event "---" = true ->
  feed (mkLogParser (matchParserPtr m) ms) event
  = mkLogParser lookingForGameParser
      (ms ++ [mkMatch (totalKills m) (getPlayerList m) (kills m) (killsByMeans m)]).
Proof. apply feed_open_divider. Qed.

End Closing.

(** C2 at the input where the code breaks it: the events of the test
    [TestEventParsingShutdownGame].  After [InitGame:] the shutdown token
    leaves the parser in the open match with no match recorded, and a log
    that ends on it is rejected as unterminated; only the divider closes
    the match. *)
Theorem shutdown_token_leaves_match_open :
  feed (feed StateMachine.newLogParser "InitGame:") "ShutdownGame:"
  = StateMachine.mkLogParser (StateMachine.matchParserPtr StateMachine.newMatchParser) []
  ∧ StateMachine.ParseLog (text ["  0:00 InitGame:"; " 20:37 ShutdownGame:"])
    = Err "log entries ended while a match was still open"
  ∧ feed (feed StateMachine.newLogParser "InitGame:") "------------"
    = StateMachine.mkLogParser StateMachine.lookingForGameParser
        [StateMachine.finish StateMachine.newMatchParser].
Proof. repeat split; vm_compute; reflexivity. Qed.

(** ** The scanner on what the encoder writes *)

Module ScanFacts.
Import Json JsonKeys.

Lemma scan_app st a b :
  scan st (a +:+ b) = match scan st a with Some st' => scan st' b | None => None end.
Proof.
  revert st. induction a as [| c a IH]; intros st; [done |]. simpl.
  destruct (step st c); [apply IH | done].
Qed.

Lemma value_text_app a b : value_text a -> value_text b -> value_text (a +:+ b).
Proof. intros Ha Hb d ks. by rewrite scan_app, Ha, Hb. Qed.

Lemma string_text_app a b : string_text a -> string_text b -> string_text (a +:+ b).
Proof. intros Ha Hb d ks. by rewrite scan_app, Ha, Hb. Qed.

Lemma string_text_cons c t :
  string_text (String c "") -> string_text t -> string_text (String c t).
Proof. intros Hc Ht. apply (string_text_app (String c "") t Hc Ht). Qed.

(** *** Single bytes, by cases on the byte *)

Lemma string_text_escape_ascii c : string_text (escape_ascii c).
Proof.
  intros d ks. destruct c as [[] [] [] [] [] [] [] []]; reflexivity.
Qed.

Lemma string_text_high_byte c : (byte c <? 128)%N = false -> string_text (String c "").
Proof.
  intros Hc d ks. destruct c as [[] [] [] [] [] [] [] []];
    first [discriminate Hc | reflexivity].
Qed.

Lemma continuation_high c : continuation c = true -> (byte c <? 128)%N = false.
Proof.
  destruct c as [[] [] [] [] [] [] [] []]; intros Hc;
    first [discriminate Hc | reflexivity].
Qed.

Lemma in_bytes_continuation lo hi c :
  (128 <= lo)%N -> (hi <= 191)%N -> in_bytes lo hi c = true -> continuation c = true.
Proof.
  unfold continuation, in_bytes. intros Hlo Hhi H.
  apply andb_true_iff in H as [H1 H2].
  apply N.leb_le in H1, H2. apply andb_true_iff. split; apply N.leb_le; lia.
Qed.

Lemma string_text_separator_digit c2 :
  in_bytes 168 169 c2 = true -> string_text (String (hex_digit (byte c2 - 160)) "").
Proof.
  intros Hc d ks. destruct c2 as [[] [] [] [] [] [] [] []];
    first [discriminate Hc | reflexivity].
Qed.

Lemma number_byte_value c : number_byte c = true -> value_text (String c "").
Proof.
  intros Hc d ks. destruct c as [[] [] [] [] [] [] [] []];
    first [discriminate Hc | reflexivity].
Qed.

Lemma number_byte_key c cur ks :
  number_byte c = true -> step (KeyStr cur, ks) c = Some (KeyStr (snoc cur c), ks).
Proof.
  intros Hc. destruct c as [[] [] [] [] [] [] [] []];
    first [discriminate Hc | reflexivity].
Qed.

End ScanFacts.

(** ** Strings as the encoder writes them *)

Module StringFacts.
Import Json JsonKeys ScanFacts.

(** A well-formed sequence has continuation bytes after its lead byte. *)
Lemma decode_tail_continuations c t n :
  decode_tail c t = Some n -> continuations n t.
Proof.
  unfold decode_tail. cbv zeta.
  repeat match goal with
         | |- context [if in_bytes ?lo ?hi c then _ else _] =>
             destruct (in_bytes lo hi c)
         | |- context [if (in_bytes ?lo ?hi c || _)%bool then _ else _] =>
             destruct (in_bytes lo hi c); simpl orb
         end; try discriminate.
  all: destruct t as [| c1 [| c2 [| c3 t3]]]; try discriminate.
  all: repeat match goal with
              | |- context [in_bytes ?lo ?hi ?x] =>
                  let H := fresh "H" in
                  destruct (in_bytes lo hi x) eqn:H;
                  [apply in_bytes_continuation in H; [| lia | lia] |]
              | |- context [continuation ?x] =>
                  let H := fresh "H" in destruct (continuation x) eqn:H
              end; try discriminate.
  all: intros [= <-]; simpl; tauto.
Qed.

Lemma string_text_line_separator c t h :
  line_separator c t = Some h -> string_text (String h "").
Proof.
  unfold line_separator. destruct t as [| c1 [| c2 t2]]; try discriminate.
  destruct (in_bytes 226 226 c && in_bytes 128 128 c1 && in_bytes 168 169 c2)%bool eqn:H;
    [| discriminate].
  intros [= <-]. apply andb_true_iff in H as [_ H].
  by apply string_text_separator_digit.
Qed.

(** Between its quotes an encoded string never shows a bare quote and
    never ends on a backslash. *)
Lemma string_text_encode_bytes t : forall p,
  match p with Copy n => continuations n t | _ => True end ->
  string_text (encode_bytes p t).
Proof.
  induction t as [| c t IH]; intros p Hp; [by intros d ks |].
  assert (string_text (encode_bytes Fresh (String c t))) as Hfresh.
  { simpl. destruct (byte c <? 128)%N eqn:Hc.
    - apply string_text_app; [apply string_text_escape_ascii | by apply IH].
    - destruct (decode_tail c t) as [n |] eqn:Hdec.
      + destruct (line_separator c t) as [h |] eqn:Hsep.
        * change (string_text
                    ((String backslash "u202" +:+ String h "") +:+ encode_bytes (Skip n) t)).
          apply string_text_app; [| by apply IH].
          apply string_text_app; [by intros d ks |].
          by apply (string_text_line_separator c t).
        * apply string_text_cons; [by apply string_text_high_byte |].
          apply IH. by apply (decode_tail_continuations c).
      + apply string_text_app; [by intros d ks | by apply IH]. }
  destruct p as [| [| n] | [| n]]; try exact Hfresh.
  - simpl in Hp. destruct Hp as [Hc Hrest]. simpl.
    apply string_text_cons; [| by apply IH].
    by apply string_text_high_byte, continuation_high.
  - simpl. by apply IH.
Qed.

Lemma value_text_encode_string t : value_text (encode_string t).
Proof.
  intros d ks. unfold encode_string.
  change (scan (Nested (S d) Out, ks) (String quote (encode_bytes Fresh t +:+ String quote "")))
    with (scan (Nested (S d) Str, ks) (encode_bytes Fresh t +:+ String quote "")).
  rewrite scan_app, (string_text_encode_bytes t Fresh I). reflexivity.
Qed.

End StringFacts.

(** ** Numbers, arrays and objects as the encoder writes them *)

Module ValueFacts.
Import Json JsonKeys ScanFacts StringFacts.

Lemma pretty_N_char_number x : number_byte (pretty_N_char x) = true.
Proof. unfold pretty_N_char. by repeat case_match. Qed.

Lemma pretty_N_go_number x : forall t,
  all_bytes number_byte t = true -> all_bytes number_byte (pretty_N_go x t) = true.
Proof.
  induction (N.lt_wf_0 x) as [x _ IH]; intros t Ht.
  assert (x = 0 ∨ 0 < x)%N as [-> | Hx] by lia.
  - by rewrite pretty_N_go_0.
  - rewrite pretty_N_go_step by done. apply IH; [by apply N.div_lt |].
    simpl. by rewrite pretty_N_char_number.
Qed.

Lemma pretty_N_number (x : N) : all_bytes number_byte (pretty x) = true.
Proof.
  unfold pretty, pretty_N. case_decide; [done |]. by apply pretty_N_go_number.
Qed.

(** A number in decimal is made of digits and at most a sign. *)
Lemma sprint_d_number z : all_bytes number_byte (sprint_d z) = true.
Proof.
  unfold sprint_d, pretty, pretty_Z. destruct z as [| p | p]; [done | ..].
  - apply (pretty_N_number (Npos p)).
  - simpl. apply (pretty_N_number (Npos p)).
Qed.

Lemma value_text_number t : all_bytes number_byte t = true -> value_text t.
Proof.
  induction t as [| c t IH]; intros Ht; [by intros d ks |].
  simpl in Ht. apply andb_true_iff in Ht as [Hc Ht].
  apply (value_text_app (String c "") t); [by apply number_byte_value | by apply IH].
Qed.

Lemma value_text_encode_int z : value_text (encode_int z).
Proof. apply value_text_number, sprint_d_number. Qed.

Lemma value_text_join parts : Forall value_text parts -> value_text (join parts).
Proof.
  induction 1 as [| x rest Hx Hrest IH]; [by intros d ks |].
  destruct rest as [| y rest]; [done |].
  change (join (x :: y :: rest)) with (x +:+ "," +:+ join (y :: rest)).
  apply value_text_app; [done |]. apply value_text_app; [by intros d ks | done].
Qed.

(** Brackets and braces around a value's text make a value's text. *)
Lemma value_text_nest (o c : ascii) t :
  is_open o = true -> is_close c = true -> Ascii.eqb c quote = false ->
  value_text t -> value_text (String o (t +:+ String c "")).
Proof.
  intros Ho Hc Hq Ht d ks. simpl. rewrite Ho, scan_app, Ht. simpl.
  assert (is_open c = false) as ->.
  { revert Hc. clear. destruct c as [[] [] [] [] [] [] [] []]; by intros. }
  by rewrite Hc.
Qed.

Lemma value_text_encode_array l : value_text (encode_array l).
Proof.
  unfold encode_array. apply (value_text_nest "[" "]"); try done.
  apply value_text_join, Forall_forall. intros x Hx.
  apply list_elem_of_In, in_map_iff in Hx as (y & <- & _).
  apply value_text_encode_string.
Qed.

Lemma value_text_encode_member kv : value_text (encode_member kv).
Proof.
  unfold encode_member. apply value_text_app; [apply value_text_encode_string |].
  apply value_text_app; [by intros d ks | apply value_text_encode_int].
Qed.

Lemma value_text_encode_map m : value_text (encode_map m).
Proof.
  unfold encode_map. apply (value_text_nest "{" "}"); try done.
  apply value_text_join, Forall_forall. intros x Hx.
  apply list_elem_of_In, in_map_iff in Hx as (y & <- & _).
  apply value_text_encode_member.
Qed.

Lemma string_text_plain c :
  (Ascii.eqb c quote || Ascii.eqb c backslash)%bool = false -> string_text (String c "").
Proof.
  intros Hc d ks. destruct c as [[] [] [] [] [] [] [] []];
    first [discriminate Hc | reflexivity].
Qed.

Lemma value_text_field name value :
  all_bytes (fun c => negb (Ascii.eqb c quote || Ascii.eqb c backslash)) name = true ->
  value_text value -> value_text (field name value).
Proof.
  intros Hname Hvalue d ks. unfold field.
  change (scan (Nested (S d) Out, ks) (String quote (name +:+ String quote (":" +:+ value))))
    with (scan (Nested (S d) Str, ks) (name +:+ String quote (":" +:+ value))).
  assert (string_text name) as Hplain.
  { clear -Hname. induction name as [| c name IH]; [by intros d ks |].
    simpl in Hname. apply andb_true_iff in Hname as [Hc Hname].
    apply negb_true_iff in Hc.
    apply string_text_cons; [by apply string_text_plain | by apply IH]. }
  rewrite scan_app, Hplain. apply Hvalue.
Qed.

(** [json.Marshal] of a match writes one value. *)
Lemma Marshal_value game :
  exists t, Marshal game = Ok t
    ∧ forall ks, scan (Value, ks) t = Some (AfterValue, ks).
Proof.
  eexists. split; [reflexivity |]. intros ks.
  set (body := join [field "total_kills" (encode_int (TotalKills game));
                     field "players" (encode_array (Players game));
                     field "kills" (encode_map (Kills game));
                     field "kills_by_means" (encode_map (KillsByMeans game))]).
  assert (value_text body) as Hbody.
  { apply value_text_join. repeat constructor; apply value_text_field; try done.
    - apply value_text_encode_int.
    - apply value_text_encode_array.
    - apply value_text_encode_map.
    - apply value_text_encode_map. }
  change (scan (Nested 1 Out, ks) (body +:+ "}") = Some (AfterValue, ks)).
  rewrite scan_app, Hbody. reflexivity.
Qed.

End ValueFacts.

(** ** The formatter *)

Module FormatterFacts.
Import Json JsonKeys ScanFacts ValueFacts.

Lemma snoc_append cur c t : snoc cur c +:+ t = cur +:+ String c t.
Proof.
  unfold snoc. induction cur as [| a cur IH]; [done |].
  change (String a ((cur +:+ String c "") +:+ t) = String a (cur +:+ String c t)).
  by rewrite IH.
Qed.

Lemma append_empty_r t : t +:+ "" = t.
Proof.
  induction t as [| a t IH]; [done |].
  change (String a (t +:+ "") = String a t). by rewrite IH.
Qed.

(** Inside a name the bytes of a number are taken as they come. *)
Lemma scan_key_number t : forall cur ks rest,
  all_bytes number_byte t = true ->
  scan (KeyStr cur, ks) (t +:+ rest) = scan (KeyStr (cur +:+ t), ks) rest.
Proof.
  induction t as [| c t IH]; intros cur ks rest Ht.
  - by rewrite append_empty_r.
  - simpl in Ht. apply andb_true_iff in Ht as [Hc Ht].
    change (scan (KeyStr cur, ks) (String c t +:+ rest))
      with (match step (KeyStr cur, ks) c with
            | Some st' => scan st' (t +:+ rest)
            | None => None
            end).
    rewrite number_byte_key by done. rewrite IH by done. by rewrite snoc_append.
Qed.

(** The name the loop writes for the index [i], and its colon. *)
Lemma scan_game_key ph ks (k : nat) :
  ph = FirstKey ∨ ph = NextKey ->
  scan (ph, ks) (String quote ("game_" +:+ sprint_d (Z.of_nat k) +:+ String quote ":"))
  = Some (Value, ks ++ [game_key k]).
Proof.
  intros Hph.
  assert (scan (ph, ks) (String quote ("game_" +:+ sprint_d (Z.of_nat k) +:+ String quote ":"))
          = scan (KeyStr "game_", ks) (sprint_d (Z.of_nat k) +:+ String quote ":")) as ->.
  { by destruct Hph as [-> | ->]. }
  rewrite scan_key_number by apply sprint_d_number. reflexivity.
Qed.

(** The loop, from any point of its run: [n] members are written, the
    scanner has read them from the buffer and waits for a name. *)
Lemma marshalLoop_scan games : forall (n : nat) buff ks ph len,
  len = Z.of_nat (n + length games) ->
  scan (Start, []) buff = Some (ph, ks) ->
  ph = FirstKey ∨ ph = NextKey ->
  exists out,
    marshalLoop (Z.of_nat n) len games buff = Ok out
    ∧ scan (Start, []) out
      = Some (match games with [] => ph | _ => AfterValue end,
              ks ++ List.map game_key (seq (S n) (length games))).
Proof.
  induction games as [| game rest IH]; intros n buff ks ph len Hlen Hbuff Hph.
  - exists buff. split; [done |]. simpl. by rewrite app_nil_r.
  - destruct (Marshal_value game) as (t & Ht & Hvalue).
    cbn [marshalLoop]. rewrite Ht.
    replace (Z.of_nat n + 1) with (Z.of_nat (S n)) by lia.
    set (buff1 := buff +:+ String quote ("game_" +:+ sprint_d (Z.of_nat (S n))
                                           +:+ String quote ":")).
    assert (scan (Start, []) (buff1 +:+ t) = Some (AfterValue, ks ++ [game_key (S n)]))
      as Hafter.
    { unfold buff1. rewrite !scan_app, Hbuff, scan_game_key by done. apply Hvalue. }
    destruct rest as [| game' rest].
    + assert ((Z.of_nat n <? len - 1)%Z = false) as ->.
      { apply Z.ltb_ge. simpl in Hlen. lia. }
      exists (buff1 +:+ t). split; [done |]. by rewrite Hafter.
    + assert ((Z.of_nat n <? len - 1)%Z = true) as ->.
      { apply Z.ltb_lt. simpl in Hlen. lia. }
      destruct (IH (S n) ((buff1 +:+ t) +:+ ",") (ks ++ [game_key (S n)]) NextKey len)
        as (out & Hout & Hscan).
      * simpl in *. lia.
      * by rewrite scan_app, Hafter.
      * by right.
      * exists out. split; [done |]. rewrite Hscan.
        change (seq (S n) (length (game :: game' :: rest)))
          with (S n :: seq (S (S n)) (length (game' :: rest))).
        by rewrite <- app_assoc.
Qed.

End FormatterFacts.

(** C9. For a sequence of [N] matches the formatter succeeds, and the
    member names read back from its output are [game_1] to [game_N], one
    for each match, in this order. *)
Theorem MarshalJSON_keys_round_trip (matches : Matches) :
  exists out,
    MarshalJSON matches = Ok out
    ∧ JsonKeys.object_keys out = Some (List.map game_key (seq 1 (length matches))).
Proof.
  unfold MarshalJSON.
  destruct (FormatterFacts.marshalLoop_scan matches 0 "{" [] JsonKeys.FirstKey
              (Z.of_nat (length matches))) as (buff & Hloop & Hscan);
    [done | done | by left |].
  change (Z.of_nat 0) with 0 in Hloop. rewrite Hloop.
  exists (buff +:+ "}"). split; [done |].
  unfold JsonKeys.object_keys. rewrite ScanFacts.scan_app, Hscan.
  by destruct matches.
Qed.

(** The output for one match of the test log, and its names. *)
Example MarshalJSON_one_match :
  MarshalJSON
    [StateMachine.finish
       (StateMachine.registerKill StateMachine.newMatchParser
          world "Isgalamido" "MOD_TRIGGER_HURT")]
  = Ok ("{" +:+ String Json.quote "game_1" +:+ String Json.quote ":{"
        +:+ String Json.quote "total_kills" +:+ String Json.quote ":1,"
        +:+ String Json.quote "players" +:+ String Json.quote ":["
        +:+ String Json.quote "Isgalamido" +:+ String Json.quote "],"
        +:+ String Json.quote "kills" +:+ String Json.quote ":{"
        +:+ String Json.quote "Isgalamido" +:+ String Json.quote ":-1},"
        +:+ String Json.quote "kills_by_means" +:+ String Json.quote ":{"
        +:+ String Json.quote "MOD_TRIGGER_HURT" +:+ String Json.quote ":1}}}").
Proof. vm_compute. reflexivity. Qed.

(** * Further properties of the code *)

(** ** Matches and the events they are made of *)

Module Sessions.
Import StateMachine Steps.

(** While a match is open, an event that is no divider only moves the
    accumulator. *)
Lemma feed_open_apply m ms event :
  HasPrefix event "---" = false ->
  feed (mkLogParser (matchParserPtr m) ms) event
  = mkLogParser (matchParserPtr (apply_event m event)) ms.
Proof.
  intros H. unfold apply_event.
  destruct (FindStringSubmatch_shape killExpr event) as [Hk | (w & a & b & c & Hk)].
  - rewrite feed_open_other by done. by rewrite Hk.
  - rewrite (feed_open_kill _ _ _ _ _ _ _ H Hk). by rewrite Hk.
Qed.

Local Abbreviation tracks p cur :=
  (match evParser p, cur with
   | lookingForGameParser, None => True
   | matchParserPtr m, Some body => m = fold_left apply_event body newMatchParser
   | _, _ => False
   end).

Lemma fold_feed_sessions events : forall p cur,
  tracks p cur ->
  matches (fold_left feed events p)
  = matches p ++ List.map match_of_session (sessions cur events).
Proof.
  induction events as [| e events IH]; intros p cur Hp.
  - simpl. by rewrite app_nil_r.
  - simpl. destruct p as [[| m] ms], cur as [body |]; simpl in Hp; try done.
    + destruct (HasPrefix e "InitGame:") eqn:H.
      * rewrite feed_looking_init by done. by rewrite (IH _ (Some [])).
      * rewrite feed_looking_other by done. by rewrite (IH _ None).
    + destruct (HasPrefix e "---") eqn:H.
      * rewrite feed_open_divider by done. rewrite (IH _ None) by done. simpl.
        rewrite <- app_assoc. simpl. unfold match_of_session. by rewrite Hp.
      * rewrite feed_open_apply by done.
        rewrite (IH _ (Some (body ++ [e]))); [done |]. simpl.
        by rewrite fold_left_app, Hp.
Qed.

Lemma open_after_sessions_nil events : forall open,
  Forall (fun e => HasPrefix e "InitGame:" = false) events ->
  open = false -> sessions None events = [].
Proof.
  induction events as [| e events IH]; intros open Hall ->; [done |].
  inversion Hall as [| ? ? He Hrest]; subst. simpl. rewrite He. by apply (IH false).
Qed.

End Sessions.

(** X1. Every match the state-machine parser returns is made of the
    events met between its [InitGame] and its divider, and of nothing
    else: the result is one match for each session that gets closed, in
    the order of the log. *)
Theorem ParseLog_matches_are_sessions (log : Reader) (ms : Matches) :
  StateMachine.ParseLog log = Ok ms ->
  exists events,
    events_of (lines log) events
    ∧ ms = List.map match_of_session (sessions None events).
Proof.
  unfold StateMachine.ParseLog.
  destruct (StateMachine.scanLoop (lines log) 0 StateMachine.newLogParser)
    as [p |] eqn:Hrun; [| done].
  destruct (Steps.scanLoop_Ok _ _ _ _ Hrun) as (events & Hev & ->).
  destruct (read_err log); [done |].
  destruct (StateMachine.evParser _) eqn:Hstate; [| done]. intros [= <-].
  exists events. split; [done |].
  by rewrite (Sessions.fold_feed_sessions events StateMachine.newLogParser None).
Qed.

Lemma ParseLog_matches_are_sessions_witness :
  exists events,
    events_of ["  0:00 InitGame:"; "  0:03 Kill: 2 3 7: Zeh killed Mocinha by MOD_ROCKET";
               "  0:09 -----"; "  0:10 noise"] events
    ∧ [match_of_session ["Kill: 2 3 7: Zeh killed Mocinha by MOD_ROCKET"]]
      = List.map match_of_session (sessions None events).
Proof.
  apply (ParseLog_matches_are_sessions
           (text ["  0:00 InitGame:"; "  0:03 Kill: 2 3 7: Zeh killed Mocinha by MOD_ROCKET";
                  "  0:09 -----"; "  0:10 noise"])).
  vm_compute. reflexivity.
Defined.

(** X2. The state-machine parser returns matches exactly when every line
    has a header, the reader reports no error and no match is open after
    the last event. *)
Theorem ParseLog_succeeds_iff (log : Reader) :
  (exists ms, StateMachine.ParseLog log = Ok ms)
  <-> (exists events, events_of (lines log) events ∧ open_after false events = false)
      ∧ read_err log = None.
Proof.
  split.
  - intros [ms H]. unfold StateMachine.ParseLog in H.
    destruct (StateMachine.scanLoop (lines log) 0 StateMachine.newLogParser)
      as [p |] eqn:Hrun; [| done].
    destruct (Steps.scanLoop_Ok _ _ _ _ Hrun) as (events & Hev & ->).
    destruct (read_err log); [done |].
    split; [| done]. exists events. split; [done |].
    pose proof (EndOfInput.fold_feed_match_open events StateMachine.newLogParser) as Ho.
    change (match_open StateMachine.newLogParser) with false in Ho. rewrite <- Ho.
    unfold match_open. by destruct (StateMachine.evParser _).
  - intros [(events & Hev & Hclosed) Herr].
    eexists. by apply (EndOfInput.ParseLog_closed log events).
Qed.

(** X3. A log in which no event starts with [InitGame:] gives no match
    and no error, whatever kill lines and dividers it holds. *)
Theorem no_InitGame_no_match (log : Reader) (events : list string) :
  events_of (lines log) events ->
  read_err log = None ->
  Forall (fun e => HasPrefix e "InitGame:" = false) events ->
  StateMachine.ParseLog log = Ok [].
Proof.
  intros Hev Herr Hno.
  assert (open_after false events = false) as Hclosed.
  { clear -Hno. induction Hno as [| e events He _ IH]; [done |]. simpl. by rewrite He. }
  rewrite (EndOfInput.ParseLog_closed log events Hev Herr Hclosed).
  rewrite (Sessions.fold_feed_sessions events StateMachine.newLogParser None) by done.
  by rewrite (Sessions.open_after_sessions_nil events false).
Qed.

Lemma no_InitGame_no_match_witness :
  StateMachine.ParseLog
    (text ["  0:03 Kill: 2 3 7: Zeh killed Mocinha by MOD_ROCKET"; "  0:09 -----"])
  = Ok [].
Proof.
  apply (no_InitGame_no_match _ ["Kill: 2 3 7: Zeh killed Mocinha by MOD_ROCKET"; "-----"]).
  - repeat constructor.
  - reflexivity.
  - repeat constructor.
Defined.

(** ** What the reader's error does *)

(** X4. When the reader fails, neither parser returns a match: both
    return an error, and the state-machine parser hands the reader's own
    error on unchanged when every line it got had a header, whether a
    match was open or not. *)
Theorem read_error_gives_no_match (log : Reader) (e : string) (o : MapOrder) :
  read_err log = Some e ->
  (exists msg, StateMachine.ParseLog log = Err msg
     ∧ forall events, events_of (lines log) events -> msg = e)
  ∧ (exists msg, Legacy.ParseLog o log = Err msg).
Proof.
  intros Herr. split.
  - unfold StateMachine.ParseLog.
    destruct (StateMachine.scanLoop (lines log) 0 StateMachine.newLogParser)
      as [p | msg] eqn:Hrun.
    + rewrite Herr. exists e. by split.
    + exists msg. split; [done |]. intros events Hev.
      by rewrite (Steps.scanLoop_events _ _ _ _ Hev) in Hrun.
  - unfold Legacy.ParseLog. rewrite Herr.
    destruct (Legacy.foundEvent (lines log)); [| by eexists].
    destruct (Legacy.scanLoop o _ [] Legacy.newMatchInfo) as [[closed cur] | msg];
      by eexists.
Qed.

Lemma read_error_gives_no_match_witness :
  StateMachine.ParseLog
    (mkReader ["  0:00 InitGame:"; "  0:09 -----"; "  0:10 InitGame:"]
       (Some "bufio.Scanner: token too long"))
  = Err "bufio.Scanner: token too long".
Proof.
  destruct (read_error_gives_no_match
              (mkReader ["  0:00 InitGame:"; "  0:09 -----"; "  0:10 InitGame:"]
                 (Some "bufio.Scanner: token too long"))
              "bufio.Scanner: token too long" Legacy.ascending eq_refl)
    as [(msg & Hrun & Hmsg) _].
  rewrite Hrun. f_equal. apply (Hmsg ["InitGame:"; "-----"; "InitGame:"]).
  repeat constructor.
Defined.

(** ** Players and their tallies in every match *)

Module RosterFacts.

Lemma registerKill_players_have_kills m killer killed killedBy :
  StateMachine.players m ⊆ dom (StateMachine.kills m) ->
  StateMachine.players (StateMachine.registerKill m killer killed killedBy)
  ⊆ dom (StateMachine.kills (StateMachine.registerKill m killer killed killedBy)).
Proof.
  intros Hsub. unfold StateMachine.registerKill, StateMachine.notePlayer. simpl.
  destruct (String.eqb_spec killer world) as [-> | Hk],
           (String.eqb_spec killed world) as [-> | Hv]; simpl;
    rewrite ?eqb_world_true, ?eqb_world_false by done; simpl;
    try destruct (String.eqb killer killed); simpl;
    rewrite ?dom_map_decr, ?dom_map_incr, ?dom_ensure; set_solver.
Qed.

Lemma registerKillEvent_players_have_kills m killer killed means :
  Legacy.players m ⊆ dom (Legacy.kills m) ->
  Legacy.players (Legacy.registerKillEvent m killer killed means)
  ⊆ dom (Legacy.kills (Legacy.registerKillEvent m killer killed means)).
Proof.
  intros Hsub. unfold Legacy.registerKillEvent, Legacy.notePlayer. simpl.
  destruct (String.eqb_spec killer world) as [-> | Hk],
           (String.eqb_spec killed world) as [-> | Hv]; simpl;
    rewrite ?eqb_world_true, ?eqb_world_false by done; simpl;
    rewrite ?dom_map_decr, ?dom_map_incr, ?dom_ensure; set_solver.
Qed.

Lemma registerKill_world_not_player m killer killed killedBy :
  world ∉ StateMachine.players m ->
  world ∉ StateMachine.players (StateMachine.registerKill m killer killed killedBy).
Proof.
  intros Hm. rewrite RegisterKill.registerKill_players.
  rewrite elem_of_union, elem_of_list_to_set, list_elem_of_filter. tauto.
Qed.

Lemma registerKillEvent_world_not_player m killer killed means :
  world ∉ Legacy.players m ->
  world ∉ Legacy.players (Legacy.registerKillEvent m killer killed means).
Proof.
  intros Hm. rewrite RegisterKillEvent.registerKillEvent_players.
  rewrite elem_of_union, elem_of_list_to_set, list_elem_of_filter. tauto.
Qed.

End RosterFacts.

(** X5. The name of the environment is never among the players of a
    match, in either parser, whatever the kill lines say. *)
Theorem world_is_never_a_player
    (log : Reader) (ms : Matches) (o : MapOrder) (source : Reader) (ms' : Matches) :
  StateMachine.ParseLog log = Ok ms ->
  Legacy.ParseLog o source = Ok ms' ->
  Forall (fun m => world ∉ Players m) ms ∧ Forall (fun m => world ∉ Players m) ms'.
Proof.
  intros Hsm Hlg. split.
  - refine (Invariants.ParseLog_all_matches
              (fun m => world ∉ StateMachine.players m) (fun m => world ∉ Players m)
              (fun _ => True) _ _ _ log ms _ Hsm).
    + apply not_elem_of_empty.
    + intros m e w a b c _ _. apply RosterFacts.registerKill_world_not_player.
    + intros m Hm. simpl. by rewrite PlayerList.getPlayerList_elem_of.
    + intros events _. by apply Forall_forall.
  - refine (Invariants.legacy_ParseLog_all_matches o
              (fun m => world ∉ Legacy.players m) (fun m => world ∉ Players m)
              (fun _ => True) _ _ _ source ms' _ Hlg).
    + apply not_elem_of_empty.
    + intros m l w a b c _ _. apply RosterFacts.registerKillEvent_world_not_player.
    + intros m Hm. simpl. by rewrite PlayerList.legacy_getPlayerList_elem_of.
    + by apply Forall_forall.
Qed.

Lemma world_is_never_a_player_witness :
  Forall (fun m => world ∉ Players m)
    [match_of_session ["Kill: 1022 1022 22: <world> killed <world> by MOD_TRIGGER_HURT"]]
  ∧ Forall (fun m => world ∉ Players m) [Legacy.finish Legacy.ascending Legacy.newMatchInfo].
Proof.
  apply (world_is_never_a_player
           (text ["  0:00 InitGame:";
                  "  0:05 Kill: 1022 1022 22: <world> killed <world> by MOD_TRIGGER_HURT";
                  "  0:09 -----"])
           _ Legacy.ascending (text []) _).
  - vm_compute. reflexivity.
  - vm_compute. reflexivity.
Defined.

(** X6. Every player of a match has an entry in its kills, players
    without a kill included; so it is in both parsers. *)
Theorem every_player_has_a_tally
    (log : Reader) (ms : Matches) (o : MapOrder) (source : Reader) (ms' : Matches) :
  StateMachine.ParseLog log = Ok ms ->
  Legacy.ParseLog o source = Ok ms' ->
  Forall (fun m => forall x, x ∈ Players m -> is_Some (Kills m !! x)) ms
  ∧ Forall (fun m => forall x, x ∈ Players m -> is_Some (Kills m !! x)) ms'.
Proof.
  intros Hsm Hlg. split.
  - refine (Invariants.ParseLog_all_matches
              (fun m => StateMachine.players m ⊆ dom (StateMachine.kills m))
              (fun m => forall x, x ∈ Players m -> is_Some (Kills m !! x))
              (fun _ => True) _ _ _ log ms _ Hsm).
    + done.
    + intros m e w a b c _ _. apply RosterFacts.registerKill_players_have_kills.
    + intros m Hm x. simpl. rewrite PlayerList.getPlayerList_elem_of.
      intros Hx. apply elem_of_dom. by apply Hm.
    + intros events _. by apply Forall_forall.
  - refine (Invariants.legacy_ParseLog_all_matches o
              (fun m => Legacy.players m ⊆ dom (Legacy.kills m))
              (fun m => forall x, x ∈ Players m -> is_Some (Kills m !! x))
              (fun _ => True) _ _ _ source ms' _ Hlg).
    + done.
    + intros m l w a b c _ _. apply RosterFacts.registerKillEvent_players_have_kills.
    + intros m Hm x. simpl. rewrite PlayerList.legacy_getPlayerList_elem_of.
      intros Hx. apply elem_of_dom. by apply Hm.
    + by apply Forall_forall.
Qed.

Lemma every_player_has_a_tally_witness :
  Forall (fun m => forall x, x ∈ Players m -> is_Some (Kills m !! x))
    [match_of_session ["Kill: 2 3 7: Zeh killed Mocinha by MOD_ROCKET"]]
  ∧ Forall (fun m => forall x, x ∈ Players m -> is_Some (Kills m !! x))
      [Legacy.finish Legacy.ascending Legacy.newMatchInfo].
Proof.
  apply (every_player_has_a_tally
           (text ["  0:00 InitGame:";
                  "  0:05 Kill: 2 3 7: Zeh killed Mocinha by MOD_ROCKET";
                  "  0:09 -----"])
           _ Legacy.ascending (text []) _).
  - vm_compute. reflexivity.
  - vm_compute. reflexivity.
Defined.

(** ** The counts by cause *)

Module CauseFacts.
Import StateMachine.

Lemma sum_values_insert (m : gmap string Z) k v :
  sum_values (<[k := v]> m) = sum_values m - map_index m k + v.
Proof.
  unfold sum_values, map_index.
  assert (forall (m' : gmap string Z) (j1 j2 : string) (z1 z2 y : Z),
            j1 ≠ j2 -> m' !! j1 = Some z1 -> m' !! j2 = Some z2 ->
            z1 + (z2 + y) = z2 + (z1 + y)) as Hcomm by (intros; lia).
  destruct (m !! k) as [x |] eqn:Hk; simpl.
  - rewrite (map_fold_delete_L _ 0 k x m (Hcomm m) Hk).
    rewrite <- (insert_delete_eq m k v).
    rewrite map_fold_insert_L; [lia | apply Hcomm | apply lookup_delete_eq].
  - rewrite map_fold_insert_L; [lia | apply Hcomm | done].
Qed.

Lemma int_wrap_add_r a b : GoInt.int_wrap (a + GoInt.int_wrap b) = GoInt.int_wrap (a + b).
Proof.
  unfold GoInt.int_wrap, GoInt.bits.
  replace (a + ((b + 2 ^ (64 - 1)) mod 2 ^ 64 - 2 ^ (64 - 1)) + 2 ^ (64 - 1))
    with (a + (b + 2 ^ (64 - 1)) mod 2 ^ 64) by lia.
  replace (a + b + 2 ^ (64 - 1)) with (a + (b + 2 ^ (64 - 1))) by lia.
  by rewrite Zplus_mod_idemp_r.
Qed.

Lemma sum_values_map_incr (m : gmap string Z) k :
  GoInt.int_wrap (sum_values (map_incr m k)) = GoInt.incr (GoInt.int_wrap (sum_values m)).
Proof.
  unfold map_incr, GoInt.incr. rewrite sum_values_insert, int_wrap_add_r.
  rewrite GoIntFacts.int_wrap_incr. f_equal. lia.
Qed.

Lemma registerKill_causes_sum m killer killed killedBy :
  GoInt.int_wrap (sum_values (killsByMeans m)) = totalKills m ->
  GoInt.int_wrap (sum_values (killsByMeans (registerKill m killer killed killedBy)))
  = totalKills (registerKill m killer killed killedBy).
Proof.
  intros Hm.
  rewrite RegisterKill.registerKill_killsByMeans, RegisterKill.registerKill_totalKills.
  by rewrite sum_values_map_incr, Hm.
Qed.

End CauseFacts.

(** X7. In every match the state-machine parser returns, the counts by
    cause add up to the total of kills (as [int]s, so up to the
    wrap-around of the sum). *)
Theorem causes_add_up_to_total (log : Reader) (ms : Matches) :
  StateMachine.ParseLog log = Ok ms ->
  Forall (fun m => GoInt.int_wrap (sum_values (KillsByMeans m)) = TotalKills m) ms.
Proof.
  intros Hsm.
  refine (Invariants.ParseLog_all_matches
            (fun m => GoInt.int_wrap (sum_values (StateMachine.killsByMeans m))
                      = StateMachine.totalKills m)
            (fun m => GoInt.int_wrap (sum_values (KillsByMeans m)) = TotalKills m)
            (fun _ => True) _ _ _ log ms _ Hsm).
  - reflexivity.
  - intros m e w a b c _ _. apply CauseFacts.registerKill_causes_sum.
  - done.
  - intros events _. by apply Forall_forall.
Qed.

Lemma causes_add_up_to_total_witness :
  Forall (fun m => GoInt.int_wrap (sum_values (KillsByMeans m)) = TotalKills m)
    [match_of_session ["Kill: 2 3 7: Zeh killed Mocinha by MOD_ROCKET";
                       "Kill: 1022 3 22: <world> killed Mocinha by MOD_FALLING"]].
Proof.
  apply (causes_add_up_to_total
           (text ["  0:00 InitGame:";
                  "  0:05 Kill: 2 3 7: Zeh killed Mocinha by MOD_ROCKET";
                  "  0:07 Kill: 1022 3 22: <world> killed Mocinha by MOD_FALLING";
                  "  0:09 -----"])).
  vm_compute. reflexivity.
Defined.

(** ** A kill of one player by another *)

Module PlayerKill.

Lemma kills_after (ks : gmap string Z) killer victim :
  killer ≠ victim ->
  let ks' := map_incr (map_ensure (map_ensure ks killer) victim) killer in
  ks' !! killer = Some (GoInt.incr (map_index ks killer))
  ∧ ks' !! victim = Some (map_index ks victim)
  ∧ forall q, q ≠ killer -> q ≠ victim -> ks' !! q = ks !! q.
Proof.
  intros Hne. simpl. unfold map_incr. split; [| split].
  - rewrite lookup_insert_eq. by rewrite !map_index_ensure.
  - rewrite lookup_insert_ne by done.
    destruct (lookup_ensure_is_Some (map_ensure ks killer) victim) as [v Hv].
    rewrite Hv. f_equal.
    transitivity (map_index (map_ensure (map_ensure ks killer) victim) victim).
    + unfold map_index at 1. by rewrite Hv.
    + by rewrite !map_index_ensure.
  - intros q Hk Hv. rewrite lookup_insert_ne by done.
    by rewrite !lookup_ensure_ne.
Qed.

Lemma registerKill_players_pair m killer victim cause :
  killer ≠ world -> victim ≠ world ->
  StateMachine.registerKill m killer victim cause
  = StateMachine.mkMatchParser (GoInt.incr (StateMachine.totalKills m))
      ({[victim]} ∪ ({[killer]} ∪ StateMachine.players m))
      (if String.eqb killer victim
       then map_ensure (map_ensure (StateMachine.kills m) killer) victim
       else map_incr (map_ensure (map_ensure (StateMachine.kills m) killer) victim) killer)
      (map_incr (StateMachine.killsByMeans m) cause).
Proof.
  intros Hk Hv. unfold StateMachine.registerKill. simpl.
  rewrite !RegisterKill.notePlayer_player by done. simpl.
  rewrite (eqb_world_false killer) by done.
  by destruct (String.eqb killer victim).
Qed.

Lemma registerKillEvent_players_pair m killer victim cause :
  killer ≠ world -> victim ≠ world ->
  Legacy.registerKillEvent m killer victim cause
  = Legacy.mkMatchInfo (Legacy.totalKills m)
      ({[victim]} ∪ ({[killer]} ∪ Legacy.players m))
      (map_incr (map_ensure (map_ensure (Legacy.kills m) killer) victim) killer)
      (map_incr (Legacy.killsByMeans m) cause).
Proof.
  intros Hk Hv. unfold Legacy.registerKillEvent. simpl.
  rewrite !RegisterKillEvent.legacy_notePlayer_player by done. simpl.
  by rewrite (eqb_world_false killer) by done.
Qed.

End PlayerKill.

(** X8. When a player kills another, both parsers add one to the
    killer's tally, give the victim an entry with the tally it had (zero
    for a newcomer), leave every other tally alone and have both names
    among the players. *)
Theorem player_kill_credits_killer
    (killer victim cause : string) (sm : StateMachine.matchParser) (lg : Legacy.matchInfo) :
  killer ≠ world -> victim ≠ world -> killer ≠ victim ->
  can_incr (map_index (StateMachine.kills sm) killer) ->
  can_incr (map_index (Legacy.kills lg) killer) ->
  (let sm' := StateMachine.registerKill sm killer victim cause in
   StateMachine.kills sm' !! killer = Some (map_index (StateMachine.kills sm) killer + 1)
   ∧ StateMachine.kills sm' !! victim = Some (map_index (StateMachine.kills sm) victim)
   ∧ (forall q, q ≠ killer -> q ≠ victim ->
        StateMachine.kills sm' !! q = StateMachine.kills sm !! q)
   ∧ StateMachine.players sm' = {[killer; victim]} ∪ StateMachine.players sm)
  ∧
  (let lg' := Legacy.registerKillEvent lg killer victim cause in
   Legacy.kills lg' !! killer = Some (map_index (Legacy.kills lg) killer + 1)
   ∧ Legacy.kills lg' !! victim = Some (map_index (Legacy.kills lg) victim)
   ∧ (forall q, q ≠ killer -> q ≠ victim -> Legacy.kills lg' !! q = Legacy.kills lg !! q)
   ∧ Legacy.players lg' = {[killer; victim]} ∪ Legacy.players lg).
Proof.
  intros Hk Hv Hne Hsm Hlg. split.
  - rewrite PlayerKill.registerKill_players_pair by done. simpl.
    assert (String.eqb killer victim = false) as -> by by apply String.eqb_neq.
    destruct (PlayerKill.kills_after (StateMachine.kills sm) killer victim Hne)
      as (H1 & H2 & H3).
    rewrite H1, GoIntFacts.incr_small by done.
    repeat split; [done | done | set_solver].
  - rewrite PlayerKill.registerKillEvent_players_pair by done. simpl.
    destruct (PlayerKill.kills_after (Legacy.kills lg) killer victim Hne)
      as (H1 & H2 & H3).
    rewrite H1, GoIntFacts.incr_small by done.
    repeat split; [done | done | set_solver].
Qed.

Lemma player_kill_credits_killer_witness :
  StateMachine.kills
    (StateMachine.registerKill StateMachine.newMatchParser "Isgalamido" "Mocinha" "MOD_ROCKET")
    !! "Isgalamido" = Some (0 + 1)
  ∧ Legacy.kills
      (Legacy.registerKillEvent Legacy.newMatchInfo "Isgalamido" "Mocinha" "MOD_ROCKET")
      !! "Mocinha" = Some 0.
Proof.
  assert (Hk : "Isgalamido" ≠ world) by discriminate.
  assert (Hv : "Mocinha" ≠ world) by discriminate.
  assert (Hne : "Isgalamido" ≠ "Mocinha") by discriminate.
  assert (Hr : can_incr 0) by (vm_compute; split; congruence).
  pose proof (player_kill_credits_killer "Isgalamido" "Mocinha" "MOD_ROCKET"
                StateMachine.newMatchParser Legacy.newMatchInfo Hk Hv Hne Hr Hr)
    as [Hs Hl].
  split; [apply Hs | apply Hl].
Defined.

(** X9. The two ways of registering a kill differ on self-kills and on
    the total only: from accumulators that hold the same players, tallies
    and counts by cause, a kill whose killer is the environment or is not
    the victim leaves them holding the same again. *)
Theorem registrations_agree
    (killer victim cause : string) (sm : StateMachine.matchParser) (lg : Legacy.matchInfo) :
  killer = world ∨ killer ≠ victim ->
  StateMachine.players sm = Legacy.players lg ->
  StateMachine.kills sm = Legacy.kills lg ->
  StateMachine.killsByMeans sm = Legacy.killsByMeans lg ->
  StateMachine.players (StateMachine.registerKill sm killer victim cause)
  = Legacy.players (Legacy.registerKillEvent lg killer victim cause)
  ∧ StateMachine.kills (StateMachine.registerKill sm killer victim cause)
    = Legacy.kills (Legacy.registerKillEvent lg killer victim cause)
  ∧ StateMachine.killsByMeans (StateMachine.registerKill sm killer victim cause)
    = Legacy.killsByMeans (Legacy.registerKillEvent lg killer victim cause).
Proof.
  intros Hcase Hp Hk Hc.
  rewrite RegisterKill.registerKill_players, RegisterKillEvent.registerKillEvent_players.
  rewrite RegisterKill.registerKill_killsByMeans,
    RegisterKillEvent.registerKillEvent_killsByMeans, Hp, Hc.
  split; [done |]. split; [| done].
  unfold StateMachine.registerKill, Legacy.registerKillEvent,
    StateMachine.notePlayer, Legacy.notePlayer. simpl.
  destruct (String.eqb_spec killer world) as [-> | Hkw],
           (String.eqb_spec victim world) as [-> | Hvw]; simpl;
    rewrite ?eqb_world_true, ?eqb_world_false by done; simpl; rewrite ?Hk; try done.
  destruct Hcase as [-> | Hne]; [done |].
  assert (String.eqb killer victim = false) as -> by by apply String.eqb_neq.
  done.
Qed.

Lemma registrations_agree_witness :
  StateMachine.kills
    (StateMachine.registerKill StateMachine.newMatchParser world "Zeh" "MOD_FALLING")
  = Legacy.kills (Legacy.registerKillEvent Legacy.newMatchInfo world "Zeh" "MOD_FALLING").
Proof.
  apply (registrations_agree world "Zeh" "MOD_FALLING"
           StateMachine.newMatchParser Legacy.newMatchInfo);
    [by left | reflexivity | reflexivity | reflexivity].
Defined.

(** ** The errors of the state-machine parser *)

Module ErrorFacts.
Import StateMachine Steps.

Lemma scanLoop_Err ls : forall n p msg,
  scanLoop ls n p = Err msg ->
  exists i line, ls !! i = Some line ∧ payload line = None.
Proof.
  induction ls as [| l ls IH]; intros n p msg H; [done |].
  destruct (payload l) as [event |] eqn:Hp.
  - rewrite (scanLoop_step _ _ _ _ _ Hp) in H.
    destruct (IH _ _ _ H) as (i & line & Hi & Hline). by exists (S i), line.
  - by exists 0%nat, l.
Qed.

End ErrorFacts.

(** X10. The state-machine parser has three errors and no other: the
    malformed line, with the number of a line of the input; the reader's
    error; the match left open.  The error that wraps a failure of an
    event parser never comes out. *)
Theorem ParseLog_errors (log : Reader) (msg : string) :
  Z.of_nat (length (lines log)) <= GoInt.max_int ->
  StateMachine.ParseLog log = Err msg ->
  (exists j line, lines log !! j = Some line ∧ payload line = None
                  ∧ msg = StateMachine.malformed (Z.of_nat j + 1))
  ∨ read_err log = Some msg
  ∨ msg = "log entries ended while a match was still open".
Proof.
  intros Hlen H. unfold StateMachine.ParseLog in H.
  destruct (StateMachine.scanLoop (lines log) 0 StateMachine.newLogParser)
    as [p | msg'] eqn:Hrun.
  - destruct (read_err log) as [e |]; [right; left; congruence |].
    destruct (StateMachine.evParser p); [done |]. right. right.
    injection H as <-. reflexivity.
  - left. injection H as <-.
    destruct (ErrorFacts.scanLoop_Err _ _ _ _ Hrun) as (i & line & Hi & Hline).
    destruct (Malformed.scanLoop_first_malformed (lines log) i line 0
                StateMachine.newLogParser Hi Hline)
      as (j & _ & Hrun' & (bad & Hbad & Hnone) & _); [simpl; lia |].
    change (Z.of_nat 0) with 0 in Hrun'. rewrite Hrun in Hrun'. injection Hrun' as ->.
    exists j, bad. by repeat split.
Qed.

Lemma ParseLog_errors_witness :
  (exists j line, ["  0:00 InitGame:"; "x"] !! j = Some line ∧ payload line = None
                  ∧ "line 2 is malformed" = StateMachine.malformed (Z.of_nat j + 1))
  ∨ None = Some "line 2 is malformed"
  ∨ "line 2 is malformed" = "log entries ended while a match was still open".
Proof.
  apply (ParseLog_errors (text ["  0:00 InitGame:"; "x"]) "line 2 is malformed").
  - vm_compute. congruence.
  - vm_compute. reflexivity.
Defined.

(** ** The parser delimited by [InitGame]: what it returns *)

Module LegacyFacts.
Import Legacy.

Lemma is_InitGame_line_event line :
  is_InitGame_line line = true -> Regexp.MatchString eventExpr line = true.
Proof.
  unfold is_InitGame_line, Regexp.FindStringSubmatch, Regexp.MatchString.
  by destruct (Regexp.search eventExpr 0 line) as [[[b e] c] |].
Qed.

(** Each separator met by the loop closes one match. *)
Lemma scanLoop_length o ls : forall ms cur ms' cur',
  scanLoop o ls ms cur = Ok (ms', cur') ->
  length ms' = (length ms + length (filter (fun l => is_InitGame_line l = true) ls))%nat.
Proof.
  induction ls as [| l ls IH]; intros ms cur ms' cur' H.
  - simpl in H. injection H as <- <-. simpl. lia.
  - simpl in H. rewrite filter_cons.
    pose proof (eq_refl (is_InitGame_line l)) as Hsep.
    unfold is_InitGame_line at 1 in Hsep.
    destruct (Regexp.FindStringSubmatch eventExpr 1 l) as [| w [| ev [| ? ?]]];
      try (rewrite decide_False by (rewrite <- Hsep; done); by apply (IH _ _ _ _ H)).
    destruct (String.eqb ev "InitGame").
    + rewrite decide_True by done. rewrite (IH _ _ _ _ H), length_app. simpl. lia.
    + rewrite decide_False by (rewrite <- Hsep; done).
      destruct (Regexp.FindStringSubmatch killExpr 3 l)
        as [| ? [| ? [| ? [| ? [| ? ?]]]]]; try done.
      by apply (IH _ _ _ _ H).
Qed.



End LegacyFacts.

(** X11. The parser delimited by [InitGame] always returns at least one
    match when it succeeds: one for each separator line that follows the
    first event line, and one more for the match open at the end; for the
    empty input it returns one empty match. *)
Theorem legacy_match_count (o : MapOrder) (source : Reader) (ms : Matches) :
  Legacy.ParseLog o source = Ok ms ->
  length ms
  = S (length (filter (fun l => is_InitGame_line l = true)
                 (Legacy.skipInitGameEvent (lines source)))).
Proof.
  unfold Legacy.ParseLog.
  destruct (if Legacy.foundEvent (lines source) then None else read_err source); [done |].
  destruct (Legacy.scanLoop o _ [] Legacy.newMatchInfo) as [[closed cur] |] eqn:Hrun;
    [| done].
  destruct (read_err source); [done |]. intros [= <-].
  rewrite length_app, (LegacyFacts.scanLoop_length _ _ _ _ _ _ Hrun). simpl. lia.
Qed.

Lemma legacy_match_count_witness :
  length [Legacy.finish Legacy.ascending Legacy.newMatchInfo]
  = S (length (filter (fun l => is_InitGame_line l = true) (Legacy.skipInitGameEvent []))).
Proof.
  apply (legacy_match_count Legacy.ascending (text [])). vm_compute. reflexivity.
Defined.





(** ** What the kill patterns capture *)

Module CaptureFacts.
Import Regexp.

(** One round of a starred class. *)
Lemma rmatch_Star_Class_step {R} (p : ascii -> bool) pos a t c
    (k : nat -> string -> captures -> option R) :
  rmatch (Star (Class p)) pos (String a t) c k
  = if p a then
      match rmatch (Star (Class p)) (S pos) t c k with
      | Some x => Some x
      | None => k pos (String a t) c
      end
    else k pos (String a t) c.
Proof.
  simpl. destruct (p a); [| done].
  assert ((pos <? S pos)%nat = true) as -> by (apply Nat.ltb_lt; lia).
  reflexivity.
Qed.

(** A starred class hands over after a run of bytes of the class. *)
Lemma rmatch_Star_Class_Some {R} (p : ascii -> bool) t : forall pos c
    (k : nat -> string -> captures -> option R) x,
  rmatch (Star (Class p)) pos t c k = Some x ->
  exists n, all_bytes p (take n t) = true ∧ String.length (take n t) = n
            ∧ k (pos + n)%nat (drop n t) c = Some x.
Proof.
  induction t as [| a t IH]; intros pos c k x H.
  - exists 0%nat. rewrite Nat.add_0_r. by repeat split.
  - rewrite rmatch_Star_Class_step in H. destruct (p a) eqn:Ha.
    + destruct (rmatch (Star (Class p)) (S pos) t c k) as [y |] eqn:Hin.
      * injection H as ->. destruct (IH _ _ _ _ Hin) as (n & Hall & Hlen & Hk).
        exists (S n). simpl. rewrite Ha, Hall, Hlen.
        replace (pos + S n)%nat with (S pos + n)%nat by lia. by repeat split.
      * exists 0%nat. rewrite Nat.add_0_r. by repeat split.
    + exists 0%nat. rewrite Nat.add_0_r. by repeat split.
Qed.

(** A group around [p+] records a run of bytes of the class that is not
    empty, on top of the groups recorded before. *)
Lemma rmatch_Group_Plus_Some {R} i (p : ascii -> bool) pos t c
    (k : nat -> string -> captures -> option R) x :
  rmatch (Group i (Plus (Class p))) pos t c k = Some x ->
  exists v pos' t', v ≠ "" ∧ all_bytes p v = true ∧ k pos' t' ((i, v) :: c) = Some x.
Proof.
  unfold Plus. cbn [rmatch]. destruct t as [| a t]; [done |].
  destruct (p a) eqn:Ha; [| done]. intros H.
  apply rmatch_Star_Class_Some in H as (n & Hall & Hlen & Hk).
  replace (S pos + n - pos)%nat with (S n) in Hk by lia.
  exists (String a (take n t)), (S pos + n)%nat, (drop n t).
  split; [done |]. split; [| done]. simpl. by rewrite Ha, Hall.
Qed.

(** Without groups, a pattern hands the groups on as it found them. *)
Lemma rmatch_group_free {R} r : forall pos t c
    (k : nat -> string -> captures -> option R) x,
  group_free r = true ->
  rmatch r pos t c k = Some x ->
  exists pos' t', k pos' t' c = Some x.
Proof.
  induction r as [| p | r1 IH1 r2 IH2 | r1 IH1 r2 IH2 | r1 IH1 | | i r1 IH1];
    intros pos t c k x Hfree H; simpl in Hfree.
  - eauto.
  - simpl in H. destruct t as [| a t]; [done |]. destruct (p a); [eauto | done].
  - apply andb_true_iff in Hfree as [H1 H2]. cbn [rmatch] in H.
    apply IH1 in H as (pos1 & t1 & H); [| done]. by apply IH2 in H.
  - apply andb_true_iff in Hfree as [H1 H2]. cbn [rmatch] in H.
    destruct (rmatch r1 pos t c k) as [y |] eqn:Hr1.
    + injection H as ->. by apply IH1 in Hr1.
    + by apply IH2 in H.
  - cbn [rmatch] in H. revert H. generalize (String.length t).
    intros fuel. revert pos t. induction fuel as [| fuel IHf]; intros pos t H; [eauto |].
    match type of H with
    | match ?inner with _ => _ end = _ => destruct inner as [y |] eqn:Hin
    end; [| eauto].
    injection H as ->. apply IH1 in Hin as (pos1 & t1 & Hin); [| done].
    destruct (pos <? pos1)%nat; [| done]. by apply IHf in Hin.
  - simpl in H. destruct (pos =? 0)%nat; [eauto | done].
  - done.
Qed.

Lemma search_match_at r t : forall pos b e c,
  search r pos t = Some (b, e, c) -> exists pos' t', match_at r pos' t' = Some (e, c).
Proof.
  induction t as [| a t IH]; intros pos b e c H; simpl in H.
  - destruct (match_at r pos "") as [[e' c'] |] eqn:Hm; [| done].
    injection H as <- <- <-. eauto.
  - destruct (match_at r pos (String a t)) as [[e' c'] |] eqn:Hm.
    + injection H as <- <- <-. eauto.
    + by apply IH in H.
Qed.

(** Three groups, each around [p+], with group-free patterns between
    them: the tail both kill patterns share. *)
Lemma three_groups mid1 mid2 (p1 p2 p3 : ascii -> bool) pos t e caps :
  group_free mid1 = true -> group_free mid2 = true ->
  rmatch (Cat (Group 1 (Plus (Class p1)))
            (Cat mid1 (Cat (Group 2 (Plus (Class p2)))
                         (Cat mid2 (Group 3 (Plus (Class p3)))))))
    pos t [] (fun pos' _ c' => Some (pos', c')) = Some (e, caps) ->
  exists a b c, caps = [(3%nat, c); (2%nat, b); (1%nat, a)]
    ∧ (a ≠ "" ∧ all_bytes p1 a = true) ∧ (b ≠ "" ∧ all_bytes p2 b = true)
    ∧ (c ≠ "" ∧ all_bytes p3 c = true).
Proof.
  intros Hmid1 Hmid2 Hm. rewrite HeaderFacts.rmatch_Cat in Hm.
  apply rmatch_Group_Plus_Some in Hm as (v1 & pos2 & t2 & Hv1 & Hp1 & Hm).
  rewrite HeaderFacts.rmatch_Cat in Hm.
  apply rmatch_group_free in Hm as (pos3 & t3 & Hm); [| done].
  rewrite HeaderFacts.rmatch_Cat in Hm.
  apply rmatch_Group_Plus_Some in Hm as (v2 & pos4 & t4 & Hv2 & Hp2 & Hm).
  rewrite HeaderFacts.rmatch_Cat in Hm.
  apply rmatch_group_free in Hm as (pos5 & t5 & Hm); [| done].
  apply rmatch_Group_Plus_Some in Hm as (v3 & pos6 & t6 & Hv3 & Hp3 & Hm).
  injection Hm as <- <-. exists v1, v2, v3. done.
Qed.

Lemma killExpr_captures event whole killer killed cause :
  FindStringSubmatch StateMachine.killExpr 3 event = [whole; killer; killed; cause] ->
  killer ≠ "" ∧ killed ≠ "" ∧ cause ≠ "" ∧ all_bytes perl_word cause = true.
Proof.
  unfold FindStringSubmatch.
  destruct (search StateMachine.killExpr 0 event) as [[[s0 e] caps] |] eqn:Hs; [| done].
  apply search_match_at in Hs as (pos & t & Hm). unfold match_at in Hm.
  unfold StateMachine.killExpr in Hm. rewrite HeaderFacts.rmatch_Cat in Hm.
  apply rmatch_group_free in Hm as (pos1 & t1 & Hm); [| done].
  apply three_groups in Hm as (a & b & c & -> & (? & _) & (? & _) & (? & ?)); [| done..].
  simpl. by intros [= _ <- <- <-].
Qed.

Lemma legacy_killExpr_captures line whole killer killed cause :
  FindStringSubmatch Legacy.killExpr 3 line = [whole; killer; killed; cause] ->
  killer ≠ "" ∧ killed ≠ "" ∧ cause ≠ "".
Proof.
  unfold FindStringSubmatch.
  destruct (search Legacy.killExpr 0 line) as [[[s0 e] caps] |] eqn:Hs; [| done].
  apply search_match_at in Hs as (pos & t & Hm). unfold match_at in Hm.
  unfold Legacy.killExpr in Hm. rewrite HeaderFacts.rmatch_Cat in Hm.
  apply rmatch_group_free in Hm as (pos1 & t1 & Hm); [| done].
  rewrite HeaderFacts.rmatch_Cat in Hm.
  apply rmatch_group_free in Hm as (pos2 & t2 & Hm); [| done].
  rewrite HeaderFacts.rmatch_Cat in Hm.
  apply rmatch_group_free in Hm as (pos3 & t3 & Hm); [| done].
  apply three_groups in Hm as (a & b & c & -> & (? & _) & (? & _) & (? & _)); [| done..].
  simpl. by intros [= _ <- <- <-].
Qed.

End CaptureFacts.

(** X14. In every match the state-machine parser returns, each cause
    under which kills are counted is a word: one or more letters, digits
    or underscores, as the last group of [killExpr] takes them. *)
Theorem causes_are_words (log : Reader) (ms : Matches) :
  StateMachine.ParseLog log = Ok ms ->
  Forall (fun m => forall cause, is_Some (KillsByMeans m !! cause) ->
                     cause ≠ "" ∧ all_bytes Regexp.perl_word cause = true) ms.
Proof.
  intros Hsm.
  refine (Invariants.ParseLog_all_matches
            (fun m => forall cause, is_Some (StateMachine.killsByMeans m !! cause) ->
                        cause ≠ "" ∧ all_bytes Regexp.perl_word cause = true)
            _ (fun _ => True) _ _ _ log ms _ Hsm).
  - intros cause [v Hv].
    change (StateMachine.killsByMeans StateMachine.newMatchParser) with (∅ : gmap string Z) in Hv.
    by rewrite lookup_empty in Hv.
  - intros m e w a b c _ Hk Hm cause.
    rewrite RegisterKill.registerKill_killsByMeans. unfold map_incr.
    destruct (decide (c = cause)) as [<- | Hne].
    + intros _. by apply CaptureFacts.killExpr_captures in Hk as (_ & _ & ? & ?).
    + rewrite lookup_insert_ne by done. apply Hm.
  - done.
  - intros events _. by apply Forall_forall.
Qed.

Lemma causes_are_words_witness :
  Forall (fun m => forall cause, is_Some (KillsByMeans m !! cause) ->
                     cause ≠ "" ∧ all_bytes Regexp.perl_word cause = true)
    [match_of_session ["Kill: 2 3 7: Zeh killed Mocinha by MOD_ROCKET splash"]].
Proof.
  apply (causes_are_words
           (text ["  0:00 InitGame:";
                  "  0:05 Kill: 2 3 7: Zeh killed Mocinha by MOD_ROCKET splash";
                  "  0:09 -----"])).
  vm_compute. reflexivity.
Defined.

(** X15. No match has a player with the empty name, in either parser:
    the groups of the kill patterns for killer and victim take at least
    one byte. *)
Theorem no_player_is_nameless
    (log : Reader) (ms : Matches) (o : MapOrder) (source : Reader) (ms' : Matches) :
  StateMachine.ParseLog log = Ok ms ->
  Legacy.ParseLog o source = Ok ms' ->
  Forall (fun m => "" ∉ Players m) ms ∧ Forall (fun m => "" ∉ Players m) ms'.
Proof.
  intros Hsm Hlg. split.
  - refine (Invariants.ParseLog_all_matches
              (fun m => "" ∉ StateMachine.players m) (fun m => "" ∉ Players m)
              (fun _ => True) _ _ _ log ms _ Hsm).
    + apply not_elem_of_empty.
    + intros m e w a b c _ Hk Hm.
      apply CaptureFacts.killExpr_captures in Hk as (Ha & Hb & _).
      rewrite RegisterKill.registerKill_players.
      rewrite elem_of_union, elem_of_list_to_set, list_elem_of_filter.
      rewrite !elem_of_cons, elem_of_nil. naive_solver.
    + intros m Hm. simpl. by rewrite PlayerList.getPlayerList_elem_of.
    + intros events _. by apply Forall_forall.
  - refine (Invariants.legacy_ParseLog_all_matches o
              (fun m => "" ∉ Legacy.players m) (fun m => "" ∉ Players m)
              (fun _ => True) _ _ _ source ms' _ Hlg).
    + apply not_elem_of_empty.
    + intros m l w a b c _ Hk Hm.
      apply CaptureFacts.legacy_killExpr_captures in Hk as (Ha & Hb & _).
      rewrite RegisterKillEvent.registerKillEvent_players.
      rewrite elem_of_union, elem_of_list_to_set, list_elem_of_filter.
      rewrite !elem_of_cons, elem_of_nil. naive_solver.
    + intros m Hm. simpl. by rewrite PlayerList.legacy_getPlayerList_elem_of.
    + by apply Forall_forall.
Qed.

Lemma no_player_is_nameless_witness :
  Forall (fun m => "" ∉ Players m)
    [match_of_session ["Kill: 2 3 7: Zeh killed Mocinha by MOD_ROCKET"]]
  ∧ Forall (fun m => "" ∉ Players m) [Legacy.finish Legacy.ascending Legacy.newMatchInfo].
Proof.
  apply (no_player_is_nameless
           (text ["  0:00 InitGame:";
                  "  0:05 Kill: 2 3 7: Zeh killed Mocinha by MOD_ROCKET";
                  "  0:09 -----"])
           _ Legacy.ascending (text []) _).
  - vm_compute. reflexivity.
  - vm_compute. reflexivity.
Defined.

(** ** The header of a timestamped line *)

Module HeaderStrip.
Import Regexp StateMachine HeaderFacts CaptureFacts.

Lemma digit_is_no_space a : perl_digit a = true -> perl_space a = false.
Proof.
  destruct a as [[] [] [] [] [] [] [] []]; intros H; first [discriminate H | reflexivity].
Qed.

Lemma space_is_no_digit a : perl_space a = true -> perl_digit a = false.
Proof.
  destruct a as [[] [] [] [] [] [] [] []]; intros H; first [discriminate H | reflexivity].
Qed.

Lemma length_append a b : String.length (a +:+ b) = (String.length a + String.length b)%nat.
Proof.
  induction a as [| x a IH]; [done |].
  change (S (String.length (a +:+ b)) = S (String.length a + String.length b)). by rewrite IH.
Qed.

Lemma drop_append a b : drop (String.length a) (a +:+ b) = b.
Proof. induction a as [| x a IH]; [by destruct b | exact IH]. Qed.

Lemma search_here r pos t e c :
  match_at r pos t = Some (e, c) -> search r pos t = Some (pos, e, c).
Proof. intros H. destruct t; simpl; by rewrite H. Qed.

(** A starred class takes a whole run of its bytes when what follows the
    run goes through. *)
Lemma rmatch_Star_run {R} (p : ascii -> bool) run : forall pos t c
    (k : nat -> string -> captures -> option R) x,
  all_bytes p run = true ->
  match t with EmptyString => True | String a _ => p a = false end ->
  k (pos + String.length run)%nat t c = Some x ->
  rmatch (Star (Class p)) pos (run +:+ t) c k = Some x.
Proof.
  induction run as [| a run IH]; intros pos t c k x Hrun Ht Hk.
  - simpl in Hk. rewrite Nat.add_0_r in Hk.
    change ("" +:+ t) with t. destruct t as [| b t]; [done |].
    by rewrite rmatch_Star_Class_stuck.
  - simpl in Hrun. apply andb_true_iff in Hrun as [Ha Hrun].
    change (String a run +:+ t) with (String a (run +:+ t)).
    rewrite rmatch_Star_Class_step, Ha.
    rewrite (IH (S pos) t c k x); [done | done | done |].
    simpl in Hk. by replace (S pos + String.length run)%nat
      with (pos + S (String.length run))%nat by lia.
Qed.

(** The first alternative of [lineHeaderExpr] on a line that starts with
    a timestamp. *)
Lemma timestamp_match ws m0 mins s0 secs sp rest :
  all_bytes perl_space ws = true ->
  perl_digit m0 = true -> all_bytes perl_digit mins = true ->
  perl_digit s0 = true -> all_bytes perl_digit secs = true ->
  perl_space sp = true ->
  match_at lineHeaderExpr 0
    (ws +:+ String m0 (mins +:+ String ":" (String s0 (secs +:+ String sp rest))))
  = Some (String.length
            (ws +:+ String m0 (mins +:+ String ":" (String s0 (secs +:+ String sp "")))),
          []).
Proof.
  intros Hws Hm0 Hmins Hs0 Hsecs Hsp.
  unfold match_at, lineHeaderExpr. rewrite rmatch_Or.
  match goal with |- match ?first with _ => _ end = _ =>
    assert (first = Some (String.length
      (ws +:+ String m0 (mins +:+ String ":" (String s0 (secs +:+ String sp "")))), []))
      as ->; [| done] end.
  unfold Plus, Chr, d, s.
  rewrite rmatch_Cat, rmatch_Bol_start, rmatch_Cat.
  apply rmatch_Star_run; [done | by apply digit_is_no_space |]. cbv beta.
  rewrite !rmatch_Cat. rewrite rmatch_Class_take by done.
  apply rmatch_Star_run; [done | done |]. cbv beta.
  rewrite rmatch_Cat. rewrite rmatch_Class_take by done.
  rewrite !rmatch_Cat. rewrite rmatch_Class_take by done.
  apply rmatch_Star_run; [done | by apply space_is_no_digit |]. cbv beta.
  rewrite rmatch_Class_take by done.
  do 2 f_equal. repeat first [rewrite length_append | progress cbn [String.length]]. lia.
Qed.

End HeaderStrip.

(** X16. A line that starts with a timestamp (white space if any, minutes,
    a colon, seconds, one white space) has for its event exactly what
    follows that white space. *)
Theorem timestamp_is_stripped (ws mins secs : string) (sp : ascii) (rest : string) :
  all_bytes Regexp.perl_space ws = true ->
  mins ≠ "" -> all_bytes Regexp.perl_digit mins = true ->
  secs ≠ "" -> all_bytes Regexp.perl_digit secs = true ->
  Regexp.perl_space sp = true ->
  payload (ws +:+ mins +:+ ":" +:+ secs +:+ String sp rest) = Some rest.
Proof.
  intros Hws Hm Hmins Hs Hsecs Hsp.
  destruct mins as [| m0 mins]; [done |]. destruct secs as [| s0 secs]; [done |].
  simpl in Hmins, Hsecs.
  apply andb_true_iff in Hmins as [Hm0 Hmins]. apply andb_true_iff in Hsecs as [Hs0 Hsecs].
  change (ws +:+ String m0 mins +:+ ":" +:+ String s0 secs +:+ String sp rest)
    with (ws +:+ String m0 (mins +:+ String ":" (String s0 (secs +:+ String sp rest)))).
  unfold payload, Regexp.FindStringIndex.
  pose proof (HeaderStrip.timestamp_match ws m0 mins s0 secs sp rest
                Hws Hm0 Hmins Hs0 Hsecs Hsp) as Hmatch.
  assert (Regexp.search StateMachine.lineHeaderExpr 0
            (ws +:+ String m0 (mins +:+ String ":" (String s0 (secs +:+ String sp rest))))
          = Some (0%nat,
                  String.length
                    (ws +:+ String m0 (mins +:+ String ":"
                                         (String s0 (secs +:+ String sp ""))))%string,
                  [])) as ->.
  { by apply HeaderStrip.search_here. }
  f_equal. unfold slice_from.
  assert (forall a b c : string, (a +:+ b) +:+ c = a +:+ (b +:+ c)) as Hassoc.
  { intros a b c. induction a as [| x a IH]; [done |].
    change (String x ((a +:+ b) +:+ c) = String x (a +:+ (b +:+ c))). by rewrite IH. }
  replace (ws +:+ String m0 (mins +:+ String ":" (String s0 (secs +:+ String sp rest))))
    with ((ws +:+ String m0 (mins +:+ String ":" (String s0 (secs +:+ String sp ""))))
          +:+ rest).
  - apply HeaderStrip.drop_append.
  - rewrite Hassoc. f_equal.
    change (String m0 ((mins +:+ String ":" (String s0 (secs +:+ String sp ""))) +:+ rest)
            = String m0 (mins +:+ String ":" (String s0 (secs +:+ String sp rest)))).
    rewrite Hassoc. do 2 f_equal.
    change (String ":" (String s0 ((secs +:+ String sp "") +:+ rest))
            = String ":" (String s0 (secs +:+ String sp rest))).
    by rewrite Hassoc.
Qed.

Lemma timestamp_is_stripped_witness :
  payload ("  " +:+ "20" +:+ ":" +:+ "37" +:+ String " " "InitGame: \sv_floodProtect\1")
  = Some "InitGame: \sv_floodProtect\1".
Proof.
  apply (timestamp_is_stripped "  " "20" "37" " " "InitGame: \sv_floodProtect\1");
    first [reflexivity | discriminate].
Defined.

(** ** The text the formatter writes *)

Module FormatterText.

Lemma append_assoc (a b c : string) : (a +:+ b) +:+ c = a +:+ (b +:+ c).
Proof.
  induction a as [| x a IH]; [done |].
  change (String x ((a +:+ b) +:+ c) = String x (a +:+ (b +:+ c))). by rewrite IH.
Qed.

Lemma append_nil_r (a : string) : a +:+ "" = a.
Proof.
  induction a as [| x a IH]; [done |]. change (String x (a +:+ "") = String x a).
  by rewrite IH.
Qed.

(** The loop adds to its buffer the members it still has to write, with
    a comma between two of them and none after the last. *)
Lemma marshalLoop_text games : forall (n : nat) buff len,
  len = Z.of_nat (n + length games) ->
  marshalLoop (Z.of_nat n) len games buff
  = Ok (buff +:+ Json.join (members (S n) games)).
Proof.
  induction games as [| game rest IH]; intros n buff len Hlen.
  - simpl. by rewrite append_nil_r.
  - cbn [marshalLoop members]. unfold marshalled. cbn [Json.Marshal].
    replace (Z.of_nat n + 1) with (Z.of_nat (S n)) by lia.
    destruct rest as [| game' rest].
    + assert ((Z.of_nat n <? len - 1)%Z = false) as ->.
      { apply Z.ltb_ge. simpl in Hlen. lia. }
      cbn [marshalLoop members Json.join]. by rewrite append_assoc.
    + assert ((Z.of_nat n <? len - 1)%Z = true) as ->.
      { apply Z.ltb_lt. simpl in Hlen. lia. }
      rewrite (IH (S n)) by (simpl in *; lia).
      f_equal. change (Json.join (?x :: members (S (S n)) (game' :: rest)))
        with (x +:+ "," +:+ Json.join (members (S (S n)) (game' :: rest))).
      by rewrite !append_assoc.
Qed.

End FormatterText.

(** X17. For every list of matches the formatter returns, without
    error, an opening brace, the members [game_1], [game_2], ... each with
    what [json.Marshal] gives for its match, one comma between two members
    and none after the last, and a closing brace; for no match at all it
    returns the empty object. *)
Theorem MarshalJSON_text (matches : Matches) :
  MarshalJSON matches = Ok ("{" +:+ Json.join (members 1 matches) +:+ "}").
Proof.
  unfold MarshalJSON.
  change 0 with (Z.of_nat 0).
  rewrite (FormatterText.marshalLoop_text matches 0 "{" (Z.of_nat (length matches)))
    by done.
  by rewrite FormatterText.append_assoc.
Qed.

(** ** The order of the kills of a match *)

Module KillOrder.
Import StateMachine.

Lemma lookup_map_ensure (m : gmap string Z) k q :
  map_ensure m k !! q = if String.eqb q k then Some (default 0 (m !! q)) else m !! q.
Proof.
  destruct (String.eqb_spec q k) as [-> | Hne].
  - unfold map_ensure. destruct (m !! k) eqn:Hk; [by rewrite Hk |].
    by rewrite lookup_insert_eq.
  - by rewrite lookup_ensure_ne.
Qed.

Lemma lookup_map_incr (m : gmap string Z) k q :
  map_incr m k !! q = if String.eqb q k then Some (GoInt.incr (default 0 (m !! q))) else m !! q.
Proof.
  unfold map_incr, map_index. destruct (String.eqb_spec q k) as [-> | Hne].
  - by rewrite lookup_insert_eq.
  - by rewrite lookup_insert_ne.
Qed.

Lemma lookup_map_decr (m : gmap string Z) k q :
  map_decr m k !! q = if String.eqb q k then Some (GoInt.decr (default 0 (m !! q))) else m !! q.
Proof.
  unfold map_decr, map_index. destruct (String.eqb_spec q k) as [-> | Hne].
  - by rewrite lookup_insert_eq.
  - by rewrite lookup_insert_ne.
Qed.

(** [registerKill] works on the kills entry by entry. *)
Lemma registerKill_lookup m killer killed killedBy q :
  kills (registerKill m killer killed killedBy) !! q
  = tally_update killer killed q (kills m !! q).
Proof.
  unfold registerKill, notePlayer, tally_update. simpl.
  destruct (String.eqb_spec killer world) as [-> | Hk],
           (String.eqb_spec killed world) as [-> | Hv]; simpl;
    rewrite ?eqb_world_true, ?eqb_world_false by done; simpl;
    try destruct (String.eqb_spec killer killed) as [-> | Hkv]; simpl;
    rewrite ?lookup_map_decr, ?lookup_map_incr, ?lookup_map_ensure;
    repeat match goal with
           | |- context [String.eqb q ?x] => destruct (String.eqb_spec q x) as [-> | ?]
           end; simpl; try done; try congruence;
    rewrite ?eqb_world_true, ?eqb_world_false by done; simpl; try done;
    try (by destruct (kills m !! _)).
  by destruct (String.eqb killer killed).
Qed.

Lemma incr_decr z : GoInt.incr (GoInt.decr z) = GoInt.decr (GoInt.incr z).
Proof.
  unfold GoInt.incr, GoInt.decr.
  rewrite GoIntFacts.int_wrap_incr.
  replace (GoInt.int_wrap (z + 1) - 1) with (-1 + GoInt.int_wrap (z + 1)) by lia.
  rewrite CauseFacts.int_wrap_add_r. f_equal. lia.
Qed.

(** Two updates of an entry can be done in either order. *)
Lemma tally_update_comm a b a' b' q entry :
  tally_update a b q (tally_update a' b' q entry)
  = tally_update a' b' q (tally_update a b q entry).
Proof.
  unfold tally_update.
  repeat match goal with
         | |- context [String.eqb ?x ?y] => destruct (String.eqb x y)
         end; destruct entry; simpl; rewrite ?incr_decr; reflexivity.
Qed.

Lemma registerKill_comm m a b c a' b' c' :
  registerKill (registerKill m a b c) a' b' c'
  = registerKill (registerKill m a' b' c') a b c.
Proof.
  assert (forall x y : matchParser,
            totalKills x = totalKills y -> players x = players y ->
            kills x = kills y -> killsByMeans x = killsByMeans y -> x = y) as Hext.
  { intros [] []; simpl; by intros -> -> -> ->. }
  apply Hext.
  - by rewrite !RegisterKill.registerKill_totalKills.
  - rewrite !RegisterKill.registerKill_players. set_solver.
  - apply map_eq. intros q. rewrite !registerKill_lookup. apply tally_update_comm.
  - rewrite !RegisterKill.registerKill_killsByMeans. apply map_eq. intros q.
    rewrite !lookup_map_incr.
    destruct (String.eqb q c), (String.eqb q c'); simpl; reflexivity.
Qed.

Lemma apply_event_comm m e1 e2 :
  apply_event (apply_event m e1) e2 = apply_event (apply_event m e2) e1.
Proof.
  unfold apply_event.
  destruct (Steps.FindStringSubmatch_shape killExpr e1) as [-> | (w1 & a1 & b1 & c1 & ->)],
           (Steps.FindStringSubmatch_shape killExpr e2) as [-> | (w2 & a2 & b2 & c2 & ->)];
    try done.
  apply registerKill_comm.
Qed.

Lemma fold_apply_event_perm body body' :
  body ≡ₚ body' -> forall m, fold_left apply_event body m = fold_left apply_event body' m.
Proof.
  induction 1 as [| e l l' _ IH | e1 e2 l | l1 l2 l3 _ IH1 _ IH2]; intros m; simpl.
  - done.
  - apply IH.
  - by rewrite apply_event_comm.
  - by rewrite IH1, IH2.
Qed.

End KillOrder.

(** X18. The match that closes a session does not depend on the order
    in which the events of the session came: the same events in another
    order give the same total, players, tallies and counts by cause. *)
Theorem match_ignores_order_of_events (body body' : list string) :
  body ≡ₚ body' -> match_of_session body = match_of_session body'.
Proof.
  intros Hperm. unfold match_of_session.
  by rewrite (KillOrder.fold_apply_event_perm body body' Hperm).
Qed.

Lemma match_ignores_order_of_events_witness :
  match_of_session ["Kill: 2 3 7: Zeh killed Mocinha by MOD_ROCKET";
                    "Kill: 1022 2 22: <world> killed Zeh by MOD_FALLING"]
  = match_of_session ["Kill: 1022 2 22: <world> killed Zeh by MOD_FALLING";
                      "Kill: 2 3 7: Zeh killed Mocinha by MOD_ROCKET"].
Proof.
  apply match_ignores_order_of_events. apply perm_swap.
Defined.

(** ** Logs one after the other *)

Module Concat.
Import StateMachine.

Lemma open_after_app ev1 : forall open ev2,
  open_after open (ev1 ++ ev2) = open_after (open_after open ev1) ev2.
Proof.
  induction ev1 as [| e ev1 IH]; intros open ev2; [done |].
  simpl. destruct open; apply IH.
Qed.

(** The sessions of two logs, the first of which leaves no match open. *)
Lemma sessions_app ev1 : forall cur ev2,
  open_after (bool_decide (is_Some cur)) ev1 = false ->
  sessions cur (ev1 ++ ev2) = sessions cur ev1 ++ sessions None ev2.
Proof.
  induction ev1 as [| e ev1 IH]; intros cur ev2 Hclosed.
  - destruct cur as [body |]; [done | done].
  - simpl in *. destruct cur as [body |]; simpl in Hclosed.
    + destruct (HasPrefix e "---"); simpl in Hclosed.
      * simpl. f_equal. by apply (IH None).
      * by apply (IH (Some _)).
    + destruct (HasPrefix e "InitGame:").
      * by apply (IH (Some [])).
      * by apply (IH None).
Qed.

Lemma ParseLog_Ok_inv log ms :
  ParseLog log = Ok ms ->
  exists events, events_of (lines log) events ∧ read_err log = None
    ∧ open_after false events = false
    ∧ ms = List.map match_of_session (sessions None events).
Proof.
  unfold ParseLog.
  destruct (scanLoop (lines log) 0 newLogParser) as [p |] eqn:Hrun; [| done].
  destruct (Steps.scanLoop_Ok _ _ _ _ Hrun) as (events & Hev & ->).
  destruct (read_err log); [done |].
  pose proof (EndOfInput.fold_feed_match_open events newLogParser) as Ho.
  change (match_open newLogParser) with false in Ho. unfold match_open in Ho.
  destruct (evParser _) eqn:Hstate; [| done]. intros [= <-].
  exists events. repeat split; try done.
  by rewrite (Sessions.fold_feed_sessions events newLogParser None).
Qed.

End Concat.

(** X19. Logs that parse can be joined: when the state-machine parser
    returns matches for two logs, it returns for the lines of the first
    followed by the lines of the second the matches of the first followed
    by the matches of the second. *)
Theorem ParseLog_of_joined_logs (ls1 ls2 : list string) (ms1 ms2 : Matches) :
  StateMachine.ParseLog (text ls1) = Ok ms1 ->
  StateMachine.ParseLog (text ls2) = Ok ms2 ->
  StateMachine.ParseLog (text (ls1 ++ ls2)) = Ok (ms1 ++ ms2).
Proof.
  intros H1 H2.
  apply Concat.ParseLog_Ok_inv in H1 as (ev1 & Hev1 & _ & Hc1 & ->).
  apply Concat.ParseLog_Ok_inv in H2 as (ev2 & Hev2 & _ & Hc2 & ->).
  assert (events_of (ls1 ++ ls2) (ev1 ++ ev2)) as Hev by by apply Forall2_app.
  assert (open_after false (ev1 ++ ev2) = false) as Hc
    by by rewrite Concat.open_after_app, Hc1.
  rewrite (EndOfInput.ParseLog_closed (text (ls1 ++ ls2)) (ev1 ++ ev2) Hev eq_refl Hc).
  rewrite (Sessions.fold_feed_sessions (ev1 ++ ev2) StateMachine.newLogParser None) by done.
  simpl. by rewrite (Concat.sessions_app ev1 None ev2), map_app.
Qed.

Lemma ParseLog_of_joined_logs_witness :
  StateMachine.ParseLog
    (text (["  0:00 InitGame:"; "  0:09 -----"]
           ++ ["  1:00 InitGame:"; "  1:05 Kill: 2 3 7: Zeh killed Mocinha by MOD_ROCKET";
               "  1:09 -----"]))
  = Ok ([match_of_session []]
        ++ [match_of_session ["Kill: 2 3 7: Zeh killed Mocinha by MOD_ROCKET"]]).
Proof.
  apply ParseLog_of_joined_logs; vm_compute; reflexivity.
Defined.

(** X20. In every match the state-machine parser returns, the total is
    the number of kill events met while the match was open, as an [int]:
    kills by the environment and self-kills count like the others. *)
Theorem total_is_number_of_kill_events (log : Reader) (ms : Matches) :
  StateMachine.ParseLog log = Ok ms ->
  exists events,
    events_of (lines log) events
    ∧ List.map TotalKills ms
      = List.map (fun body => GoInt.int_wrap (kill_count body)) (sessions None events).
Proof. apply TotalKillsFacts.ParseLog_totalKills. Qed.

Lemma total_is_number_of_kill_events_witness :
  exists events,
    events_of ["  0:00 InitGame:"; "  0:03 Kill: 2 2 7: Zeh killed Zeh by MOD_ROCKET";
               "  0:05 Kill: 1022 2 22: <world> killed Zeh by MOD_FALLING"; "  0:09 -----"]
      events
    ∧ List.map TotalKills
        [match_of_session ["Kill: 2 2 7: Zeh killed Zeh by MOD_ROCKET";
                           "Kill: 1022 2 22: <world> killed Zeh by MOD_FALLING"]]
      = List.map (fun body => GoInt.int_wrap (kill_count body)) (sessions None events).
Proof.
  apply (total_is_number_of_kill_events
           (text ["  0:00 InitGame:"; "  0:03 Kill: 2 2 7: Zeh killed Zeh by MOD_ROCKET";
                  "  0:05 Kill: 1022 2 22: <world> killed Zeh by MOD_FALLING";
                  "  0:09 -----"])).
  vm_compute. reflexivity.
Defined.

(** X21. As long as no kill line has the environment as its victim, the
    keys of the kills of every match the state-machine parser returns are
    exactly its players. *)
Theorem kills_keys_are_players (log : Reader) (ms : Matches) :
  Forall (fun l => forall e whole killer killed cause,
            payload l = Some e ->
            Regexp.FindStringSubmatch StateMachine.killExpr 3 e
              = [whole; killer; killed; cause] ->
            killed ≠ world) (lines log) ->
  StateMachine.ParseLog log = Ok ms ->
  Forall (fun m => dom (Kills m) = list_to_set (Players m)) ms.
Proof.
  intros Hlines Hsm.
  refine (Invariants.ParseLog_all_matches
            (fun m => dom (StateMachine.kills m) = StateMachine.players m)
            (fun m => dom (Kills m) = list_to_set (Players m))
            (fun e => forall whole killer killed cause,
               Regexp.FindStringSubmatch StateMachine.killExpr 3 e
                 = [whole; killer; killed; cause] -> killed ≠ world)
            _ _ _ log ms _ Hsm).
  - reflexivity.
  - intros m e w a b c He Hk Hdom. apply Roster.registerKill_keeps_roster; [| done].
    intros [_ ->]. by apply (He w a world c).
  - intros m Hdom. simpl. rewrite Hdom. apply set_eq. intros x.
    by rewrite elem_of_list_to_set, PlayerList.getPlayerList_elem_of.
  - intros events Hev. clear Hsm. revert Hlines.
    induction Hev as [| l e ls events Hp _ IH]; intros Hlines; [constructor |].
    inversion Hlines as [| ? ? Hl Hrest]; subst.
    constructor; [| by apply IH].
    intros w a b c Hk. by apply (Hl e w a b c).
Qed.

Lemma kills_keys_are_players_witness :
  Forall (fun m => dom (Kills m) = list_to_set (Players m))
    [match_of_session ["Kill: 1022 2 22: <world> killed Zeh by MOD_FALLING"]].
Proof.
  apply (kills_keys_are_players
           (text ["  0:00 InitGame:";
                  "  0:05 Kill: 1022 2 22: <world> killed Zeh by MOD_FALLING"; "  0:09 -----"])).
  - repeat constructor; intros e w a b c He Hk; vm_compute in He; injection He as <-;
      vm_compute in Hk; first [discriminate Hk | injection Hk as _ _ <- _; discriminate].
  - vm_compute. reflexivity.
Defined.
